(** * comfy-setup: the [model] download manager (util/model.py)

    A shallow embedding of the name resolver, the filename derivation, the
    single-transfer pipeline and the front half of the [dl] command, with the
    properties of the specification proved (or refuted) against it. *)

From Stdlib Require Import ZArith Ascii String.
From Stdlib.Strings Require Import Byte.
From stdpp Require Import base relations gmap sets list strings.
From stdpp Require Import sorting.

#[local] Set Warnings "-clear-no-such-hyp".

Local Open Scope string_scope.

(** ** Results of a Python call

    A call either returns, leaves through [sys.exit(msg)], or raises.
    [Diverge] is the embedding's own: it marks a recursion that ran out of
    fuel, and is proved unreachable for [expand_names]. *)

Inductive exn :=
| URLError            (* urlopen / response.read failed *)
| ValueError          (* int() on a malformed Content-Length *)
| IsADirectoryError   (* opening a directory for writing *)
| FileExistsError     (* mkdir on a path that is a regular file *)
| BadZipFile          (* ZipFile / extractall failed *)
| IndexError.         (* list index out of range *)

Inductive result (A : Type) :=
| Ok (a : A)
| Exit (msg : string)
| Raise (e : exn)
| Diverge.
Arguments Ok {A} a.
Arguments Exit {A} msg.
Arguments Raise {A} e.
Arguments Diverge {A}.

(** State that survives an exception: the computation returns the state it
    reached together with how it ended. *)
Definition M (S A : Type) : Type := S → S * result A.

Definition ret {S A} (a : A) : M S A := λ s, (s, Ok a).

Definition bind {S A B} (k : A → M S B) (m : M S A) : M S B :=
  λ s, match m s with
       | (s', Ok a) => k a s'
       | (s', Exit msg) => (s', Exit msg)
       | (s', Raise e) => (s', Raise e)
       | (s', Diverge) => (s', Diverge)
       end.

#[global] Instance M_ret {S} : MRet (M S) := @ret S.
#[global] Instance M_bind {S} : MBind (M S) := @bind S.

Definition modify {S} (f : S → S) : M S unit := λ s, (f s, Ok tt).
Definition gets {S A} (f : S → A) : M S A := λ s, (s, Ok (f s)).
Definition sys_exit {S A} (msg : string) : M S A := λ s, (s, Exit msg).
Definition raise {S A} (e : exn) : M S A := λ s, (s, Raise e).

(** [for x in l: body(x)] *)
Fixpoint for_each {S A} (body : A → M S unit) (l : list A) : M S unit :=
  match l with
  | [] => mret tt
  | x :: l' => body x ;; for_each body l'
  end.

(** ** The index *)

Record model_entry := {
  m_url : string;
  m_subdirectory : string;
  m_unzip : option bool           (* read with m.get("unzip", False) *)
}.

Record index := {
  models : gmap string model_entry;
  groups : gmap string (list string)
}.

(** ** Group expansion *)

Module NameResolver.

(** The variables captured by the closure [expand], and what it printed. *)
Record xstate := {
  expanded : list string;
  visiting : gset string;
  printed : list string
}.

Definition cycle_msg (name : string) : string :=
  "Error: cyclic group reference detected at '" ++ name ++ "'".

Definition group_trace (name : string) (members : list string) : string :=
  "Group '" ++ name ++ "' expanded to: " ++ String.concat " " members.

Definition visiting_add (name : string) (st : xstate) : xstate :=
  {| expanded := expanded st; visiting := {[name]} ∪ visiting st;
     printed := printed st |}.

Definition visiting_remove (name : string) (st : xstate) : xstate :=
  {| expanded := expanded st; visiting := visiting st ∖ {[name]};
     printed := printed st |}.

Definition expanded_append (name : string) (st : xstate) : xstate :=
  {| expanded := expanded st ++ [name]; visiting := visiting st;
     printed := printed st |}.

Definition print (s : string) (st : xstate) : xstate :=
  {| expanded := expanded st; visiting := visiting st;
     printed := printed st ++ [s] |}.

(** The inner function [expand(name)]; [fuel] bounds the recursion depth. *)
Fixpoint expand (fuel : nat) (idx : index) (name : string) : M xstate unit :=
  match fuel with
  | 0 => λ st, (st, Diverge)
  | S fuel' =>
      in_visiting ← gets (λ st, bool_decide (name ∈ visiting st));
      if in_visiting : bool then sys_exit (cycle_msg name)
      else match groups idx !! name with
           | Some members =>
               modify (visiting_add name);;
               modify (print (group_trace name members));;
               for_each (expand fuel' idx) members;;
               modify (visiting_remove name)
           | None => modify (expanded_append name)
           end
  end.

(** [# Deduplicate preserving order] *)
Fixpoint dedup_loop (seen : gset string) (result : list string)
    (l : list string) : list string :=
  match l with
  | [] => result
  | n :: l' =>
      if decide (n ∈ seen) then dedup_loop seen result l'
      else dedup_loop ({[n]} ∪ seen) (result ++ [n]) l'
  end.

Definition init : xstate :=
  {| expanded := []; visiting := ∅; printed := [] |}.

(** The recursion never goes deeper than one call per group plus the leaf. *)
Definition depth_bound (idx : index) : nat := S (size (groups idx)).

(** [expand_names(index, names)]: what was printed, and the result. *)
Definition expand_names (idx : index) (names : list string)
    : list string * result (list string) :=
  match for_each (expand (depth_bound idx) idx) names init with
  | (st, Ok _) => (printed st, Ok (dedup_loop ∅ [] (expanded st)))
  | (st, Exit msg) => (printed st, Exit msg)
  | (st, Raise e) => (printed st, Raise e)
  | (st, Diverge) => (printed st, Diverge)
  end.

End NameResolver.

(** ** Python string operations used by the filename derivation

    Strings are sequences of Latin-1 code points: that is how http.client
    decodes header text. *)

Module PyStr.

Definition code (c : ascii) : N := N_of_ascii c.

(** [str.lower] on one code point: A-Z, and the Latin-1 capitals
    U+00C0..U+00DE except the multiplication sign U+00D7. *)
Definition lower_char (c : ascii) : ascii :=
  let n := code c in
  if ((65 <=? n) && (n <=? 90))%N then ascii_of_N (n + 32)
  else if ((192 <=? n) && (n <=? 222) && negb (n =? 215))%N
       then ascii_of_N (n + 32)
  else c.

Fixpoint lower (s : string) : string :=
  match s with
  | EmptyString => EmptyString
  | String c s' => String (lower_char c) (lower s')
  end.

(** What [str.strip()] removes: [str.isspace] on Latin-1. *)
Definition is_space (c : ascii) : bool :=
  let n := code c in
  (((9 <=? n) && (n <=? 13)) || ((28 <=? n) && (n <=? 32))
   || (n =? 133) || (n =? 160))%N.

Definition is_char (d c : ascii) : bool := bool_decide (c = d).

Fixpoint lstrip (p : ascii → bool) (s : string) : string :=
  match s with
  | EmptyString => EmptyString
  | String c s' => if p c then lstrip p s' else s
  end.

Fixpoint rstrip (p : ascii → bool) (s : string) : string :=
  match s with
  | EmptyString => EmptyString
  | String c s' =>
      match rstrip p s' with
      | EmptyString => if p c then EmptyString else String c EmptyString
      | r => String c r
      end
  end.

(** The double quote, U+0022. *)
Definition dquote : ascii := ascii_of_N 34.

(** [s.strip()] is [strip is_space s]; stripping the double quote is
    [strip (is_char dquote) s]. *)
Definition strip (p : ascii → bool) (s : string) : string :=
  rstrip p (lstrip p s).

(** [s.split(sep)] for a one-character separator. *)
Fixpoint split (sep : ascii) (s : string) : list string :=
  match s with
  | EmptyString => [EmptyString]
  | String c s' =>
      if decide (c = sep) then EmptyString :: split sep s'
      else match split sep s' with
           | p :: ps => String c p :: ps
           | [] => [String c EmptyString]
           end
  end.

(** [s.split(sep, 1)] for a one-character separator. *)
Fixpoint split1 (sep : ascii) (s : string) : list string :=
  match s with
  | EmptyString => [EmptyString]
  | String c s' =>
      if decide (c = sep) then [EmptyString; s']
      else match split1 sep s' with
           | p :: ps => String c p :: ps
           | [] => [String c EmptyString]
           end
  end.

(** [s.startswith(prefix)] *)
Definition startswith (s prefix : string) : bool := String.prefix prefix s.

(** [os.path.basename(p)]: what follows the last slash. *)
Definition basename (p : string) : string :=
  default EmptyString (last (split "/" p)).

(** Truthiness of a string, and of an optional string. *)
Definition truthy (s : string) : bool := negb (bool_decide (s = EmptyString)).

Definition truthy_opt (o : option string) : bool :=
  match o with Some s => truthy s | None => false end.

End PyStr.

(** ** HTTP messages *)

Abbreviation bytes := (list Byte.byte).

(** [Message.get(name)]: the first header of that name, names compared
    without regard to case. *)
Fixpoint headers_get (hs : list (string * string)) (name : string)
    : option string :=
  match hs with
  | [] => None
  | (k, v) :: hs' =>
      if decide (PyStr.lower k = PyStr.lower name) then Some v
      else headers_get hs' name
  end.

(** One [response.read(CHUNK_SIZE)]: bytes, or a network fault.  The end of
    the list is the end of the body, where [read] returns no bytes. *)
Inductive read_event :=
| Data (chunk : bytes)
| Fault.

Record response := {
  resp_headers : list (string * string);
  resp_stream : list read_event
}.

(** [urllib.request.Request]: [headers] travel with a redirect,
    [unredirected_hdrs] do not. *)
Record request := {
  req_url : string;
  req_headers : gmap string string;
  req_unredirected_hdrs : gmap string string
}.

Definition Request (url : string) : request :=
  {| req_url := url; req_headers := ∅; req_unredirected_hdrs := ∅ |}.

Definition add_unredirected_header (key val : string) (r : request) : request :=
  {| req_url := req_url r; req_headers := req_headers r;
     req_unredirected_hdrs := <[key := val]> (req_unredirected_hdrs r) |}.



(** ** The library and the outside world

    What the program takes from urllib, pathlib, zipfile and the network. *)
Class Env := {
  (** [urllib.parse.urlparse(url).hostname] *)
  hostname_of : string → option string;
  (** [urllib.parse.urlparse(url).path] *)
  url_path : string → string;
  (** [subdirectory / filename] *)
  joinpath : string → string → string;
  (** [urllib.request.urlopen(req)]; [None] when it raises *)
  urlopen : request → option response;
  (** [int(s)]; [None] when it raises ValueError *)
  int_of_string : string → option Z;
  (** [zipfile.is_zipfile] on a file's contents *)
  is_zip : bytes → bool;
  (** the files [ZipFile(...).extractall(dir)] writes, in order, as
      (path, contents); [None] when it raises *)
  extractall : bytes → string → option (list (string * bytes))
}.

(** ** Filename derivation *)

Module Filename.

Definition default_name : string := "downloaded.file".

(** The [for part in cd.split(";")] loop; [None] when it falls through. *)
Fixpoint scan_parts (parts : list string) : option (result string) :=
  match parts with
  | [] => None
  | part :: rest =>
      let part := PyStr.strip PyStr.is_space part in
      if PyStr.startswith (PyStr.lower part) "filename="
      then match PyStr.split1 "=" part !! 1%nat with
           | Some v => Some (Ok (PyStr.strip (PyStr.is_char PyStr.dquote) v))
           | None => Some (Raise IndexError)
           end
      else scan_parts rest
  end.

Definition get_filename_from_response `{Env} (resp : response) (url : string)
    : result string :=
  let fallback :=
    let b := PyStr.basename (url_path url) in
    Ok (if PyStr.truthy b then b else default_name) in
  match headers_get (resp_headers resp) "Content-Disposition" with
  | Some cd =>
      if PyStr.truthy cd
      then match scan_parts (PyStr.split ";" cd) with
           | Some r => r
           | None => fallback
           end
      else fallback
  | None => fallback
  end.

End Filename.

(** ** The world a command runs in *)

(** A console line.  Progress lines are kept structured: their text goes
    through [format_bytes] and float formatting, which are not modelled. *)
Inductive line :=
| Out (s : string)                                     (* stdout *)
| Err (s : string)                                     (* stderr *)
| Progress (name : string) (downloaded : Z) (total : option Z).

Record world := {
  files : gmap string bytes;                   (* regular files, by path *)
  dirs : gset string;                          (* directories, by path *)
  tokens_file : option (gmap string string);   (* TOKENS_FILE, parsed *)
  index_file : option index;                   (* INDEX_FILE, parsed *)
  console : list line;
  sent : list request                          (* requests put on the wire *)
}.

Definition set_files (f : gmap string bytes → gmap string bytes) (w : world)
    : world :=
  {| files := f (files w); dirs := dirs w; tokens_file := tokens_file w;
     index_file := index_file w; console := console w; sent := sent w |}.

Definition set_dirs (f : gset string → gset string) (w : world) : world :=
  {| files := files w; dirs := f (dirs w); tokens_file := tokens_file w;
     index_file := index_file w; console := console w; sent := sent w |}.

Definition set_index_file (i : option index) (w : world) : world :=
  {| files := files w; dirs := dirs w; tokens_file := tokens_file w;
     index_file := i; console := console w; sent := sent w |}.


Definition emit (l : line) (w : world) : world :=
  {| files := files w; dirs := dirs w; tokens_file := tokens_file w;
     index_file := index_file w; console := console w ++ [l];
     sent := sent w |}.

Definition emit_all (ls : list line) (w : world) : world :=
  {| files := files w; dirs := dirs w; tokens_file := tokens_file w;
     index_file := index_file w; console := console w ++ ls;
     sent := sent w |}.

Definition record_request (r : request) (w : world) : world :=
  {| files := files w; dirs := dirs w; tokens_file := tokens_file w;
     index_file := index_file w; console := console w;
     sent := sent w ++ [r] |}.

(** [path.exists()] *)
Definition exists_path (p : string) (w : world) : bool :=
  bool_decide (is_Some (files w !! p)) || bool_decide (p ∈ dirs w).

Definition load_index : M world index :=
  gets (λ w, default {| models := ∅; groups := ∅ |} (index_file w)).

Definition save_index (data : index) : M world unit :=
  modify (set_index_file (Some data)).

Definition load_tokens : M world (gmap string string) :=
  gets (λ w, default ∅ (tokens_file w)).

(** [path.mkdir(parents=True, exist_ok=True)]; the ancestors it creates are
    not tracked. *)
Definition ensure_parent_dir (path : string) : M world unit :=
  on_file ← gets (λ w, bool_decide (is_Some (files w !! path)));
  if on_file : bool then raise FileExistsError
  else modify (set_dirs (λ d, {[path]} ∪ d)).

(** ** One transfer *)

Module Transfer.

Definition nl : string := String (ascii_of_N 10) EmptyString.

Definition skip_notice (name target : string) : line :=
  Out ("[" ++ name ++ "] Skipping (exists): " ++ target).

Definition done_notice (name target : string) : line :=
  Out (nl ++ "[" ++ name ++ "] Done → " ++ target).

Definition zip_warning (name target : string) : line :=
  Err ("[" ++ name ++ "] WARNING: file is not a valid zip: " ++ target).

Definition unzipping_notice (name target : string) : line :=
  Out ("[" ++ name ++ "] Unzipping " ++ target ++ " ...").

Definition unzipped_notice (name target : string) : line :=
  Out ("[" ++ name ++ "] Unzipped and removed " ++ target).

(** The request of lines 104-106, from the token table just loaded. *)
Definition build_request `{Env} (url : string) (tokens : gmap string string)
    : request :=
  let req := Request url in
  match hostname_of url with
  | Some hostname =>
      if PyStr.truthy hostname
      then match tokens !! hostname with
           | Some tok => add_unredirected_header "Authorization"
                           ("Bearer " ++ tok) req
           | None => req
           end
      else req
  | None => req
  end.

(** [open(target, "wb")]: truncate or create. *)
Definition open_wb (target : string) : M world unit :=
  is_dir ← gets (λ w, bool_decide (target ∈ dirs w));
  if is_dir : bool then raise IsADirectoryError
  else modify (set_files (λ f, <[target := []]> f)).

(** [out.write(chunk)] *)
Definition write_chunk (target : string) (chunk : bytes) : M world unit :=
  modify (set_files (λ f, <[target := app (default [] (f !! target)) chunk]> f)).

Definition is_true_Z (o : option Z) : bool :=
  match o with Some z => negb (z =? 0)%Z | None => false end.

(** The [while True] loop over [response.read(CHUNK_SIZE)]. *)
Fixpoint stream_loop (name target : string) (total : option Z)
    (downloaded : Z) (stream : list read_event) : M world unit :=
  match stream with
  | [] => mret tt
  | Fault :: _ => raise URLError
  | Data [] :: _ => mret tt
  | Data chunk :: rest =>
      write_chunk target chunk;;
      let downloaded := (downloaded + Z.of_nat (length chunk))%Z in
      modify (emit (Progress name downloaded
                      (if is_true_Z total then total else None)));;
      stream_loop name target total downloaded rest
  end.

(** [total = int(total) if total else None] *)
Definition content_length `{Env} (resp : response) : M world (option Z) :=
  match headers_get (resp_headers resp) "Content-Length" with
  | Some s =>
      if PyStr.truthy s
      then match int_of_string s with
           | Some z => mret (Some z)
           | None => raise ValueError
           end
      else mret None
  | None => mret None
  end.

Definition lift {A} (r : result A) : M world A := λ w, (w, r).

(** Lines 141-151: the extraction step. *)
Definition unzip_step `{Env} (name subdirectory target : string)
    : M world unit :=
  valid ← gets (λ w, match files w !! target with
                     | Some c => is_zip c
                     | None => false
                     end);
  if valid : bool
  then
    modify (emit (unzipping_notice name target));;
    content ← gets (λ w, default [] (files w !! target));
    match extractall content subdirectory with
    | Some entries =>
        modify (set_files (λ f,
          foldl (λ f' e, <[e.1 := e.2]> f') f entries));;
        modify (set_files (delete target));;
        modify (emit (unzipped_notice name target))
    | None => raise BadZipFile
    end
  else modify (emit (zip_warning name target)).

(** What [download_file] does once the response is open. *)
Definition receive `{Env} (name url subdirectory : string)
    (force unzip : bool) (resp : response) : M world string :=
  filename ← lift (Filename.get_filename_from_response resp url);
  let target := joinpath subdirectory filename in
  present ← gets (exists_path target);
  if (present : bool) && negb force
  then modify (emit (skip_notice name target));; mret target
  else
    total ← content_length resp;
    open_wb target;;
    stream_loop name target total 0 (resp_stream resp);;
    modify (emit (done_notice name target));;
    (if unzip then unzip_step name subdirectory target else mret tt);;
    mret target.

Definition download_file `{Env} (name url subdirectory : string)
    (force unzip : bool) : M world string :=
  tokens ← load_tokens;
  let req := build_request url tokens in
  ensure_parent_dir subdirectory;;
  modify (record_request req);;
  match urlopen req with
  | Some resp => receive name url subdirectory force unzip resp
  | None => raise URLError
  end.

End Transfer.

(** ** The [token] and [dl] commands *)

Module Command.


Record args := {
  names : list string;
  url : option string;
  subdirectory : option string;
  jobs : option Z;
  force : bool;
  unzip : bool
}.

(** (name, url, subdirectory, force, unzip) *)
Definition task : Type := string * string * string * bool * bool.

(** The [for name in names] loop that builds [tasks]. *)
Fixpoint build_tasks (idx : index) (frc : bool) (ns : list string)
    (tasks : list task) : M world (list task) :=
  match ns with
  | [] => mret tasks
  | name :: rest =>
      match models idx !! name with
      | None => sys_exit ("Error: no entry for model '" ++ name ++ "'")
      | Some m =>
          build_tasks idx frc rest
            (tasks ++ [(name, m_url m, m_subdirectory m, frc,
                        default false (m_unzip m))])
      end
  end.

Definition register (idx : index) (name : string) (e : model_entry) : index :=
  {| models := <[name := e]> (models idx); groups := groups idx |}.

(** What [cmd_dl] hands to the thread pool: [max_workers] and the tasks
    submitted, in order. *)
Record batch := { max_workers : Z; submitted : list task }.

(** [cmd_dl(args)] up to the thread pool.  [None]: the ad-hoc download ran
    and the command returned.  [Some b]: the batch the executor is given;
    running it is outside the embedding. *)
Definition cmd_dl `{Env} (a : args) : M world (option batch) :=
  idx ← load_index;
  let ns := NameResolver.dedup_loop ∅ [] (names a) in
  let '(trace, r) := NameResolver.expand_names idx ns in
  modify (emit_all (Out <$> trace));;
  ns ← Transfer.lift r;
  if PyStr.truthy_opt (url a) || PyStr.truthy_opt (subdirectory a)
  then
    if negb (bool_decide (length ns = 1%nat))
    then sys_exit "Error: -u / -d require exactly one model name"
    else if negb (PyStr.truthy_opt (url a))
              || negb (PyStr.truthy_opt (subdirectory a))
    then sys_exit "Error: -u and -d must be used together"
    else if bool_decide (is_Some (jobs a))
    then sys_exit "Error: -j cannot be used with -u / -d"
    else
      match ns !! 0%nat, url a, subdirectory a with
      | Some n, Some u, Some d =>
          let idx' := register idx n
            {| m_url := u; m_subdirectory := d; m_unzip := Some (unzip a) |} in
          save_index idx';;
          Transfer.download_file n u d (force a) (unzip a);;
          mret None
      | _, _, _ => raise IndexError
      end
  else
    tasks ← build_tasks idx (force a) ns [];
    let j := match jobs a with
             | Some j => j
             | None => if bool_decide (1 < length tasks)%nat then 4%Z else 1%Z
             end in
    mret (Some {| max_workers := j; submitted := tasks |}).

End Command.

(** ** The [group] and [list] commands *)

Module Registry.

(** [m in index["models"] or m in index["groups"]] *)
Definition known (idx : index) (m : string) : bool :=
  bool_decide (is_Some (models idx !! m))
  || bool_decide (is_Some (groups idx !! m)).

Definition set_groups (g : gmap string (list string)) (idx : index) : index :=
  {| models := models idx; groups := g |}.

(** [cmd_group(args)] with [args.group] and [args.models]. *)
Definition cmd_group (group : string) (members : list string)
    : M world unit :=
  idx ← load_index;
  match members with
  | [] =>
      match groups idx !! group with
      | None => sys_exit ("Error: group '" ++ group ++ "' does not exist")
      | Some _ =>
          save_index (set_groups (delete group (groups idx)) idx);;
          modify (emit (Out ("Deleted group '" ++ group ++ "'")))
      end
  | _ =>
      for_each (λ m, if known idx m then mret tt
                     else sys_exit ("Error: unknown model or group '"
                                    ++ m ++ "'")) members;;
      save_index (set_groups (<[group := members]> (groups idx)) idx);;
      modify (emit (Out ("Saved group '" ++ group ++ "': "
                         ++ String.concat " " members)))
  end.

(** Python's order on strings: by code point, a proper prefix first. *)
Definition str_le (a b : string) : Prop := String.leb a b = true.

#[global] Instance str_le_dec (a b : string) : Decision (str_le a b).
Proof. unfold str_le. apply _. Defined.

(** [sorted(d.items())] and [sorted(d)]: entries ordered by key. *)
Definition sorted_items {V} (d : gmap string V) : list (string * V) :=
  merge_sort (λ a b, str_le a.1 b.1) (map_to_list d).

Definition sorted_keys {V} (d : gmap string V) : list string :=
  merge_sort str_le (map_to_list d).*1.

Definition tab : string := String (ascii_of_N 9) EmptyString.

(** [str(b)] for a bool inside an f-string. *)
Definition str_bool (b : bool) : string := if b then "True" else "False".

Definition model_line (e : string * model_entry) : line :=
  Out (e.1 ++ tab ++ m_subdirectory e.2 ++ tab ++ "unzip="
       ++ str_bool (default false (m_unzip e.2))).

Definition group_line (e : string * list string) : line :=
  Out (e.1 ++ tab ++ String.concat " " e.2).

(** [cmd_list(args)] with [args.kind]. *)
Definition cmd_list (kind : string) : M world unit :=
  idx ← load_index;
  if decide (kind = "token") then
    tokens ← load_tokens;
    for_each (λ h, modify (emit (Out h))) (sorted_keys tokens)
  else if decide (kind = "dl") then
    for_each (λ e, modify (emit (model_line e))) (sorted_items (models idx))
  else if decide (kind = "group") then
    for_each (λ e, modify (emit (group_line e))) (sorted_items (groups idx))
  else mret tt.

End Registry.

(** ** Specification-side notions *)

Module Spec.

(** [refs idx a b]: group [a] lists [b] as a member. *)
Definition refs (idx : index) (a b : string) : Prop :=
  ∃ members, groups idx !! a = Some members ∧ b ∈ members.

(** No cyclic group reference can be reached from the requested names. *)
Definition acyclic_from (idx : index) (names : list string) : Prop :=
  ∀ n x, n ∈ names → rtc (refs idx) n x → ¬ tc (refs idx) x x.

(** Some requested name leads to a name that refers back to itself. *)
Definition cyclic_from (idx : index) (names : list string) : Prop :=
  ∃ n x, n ∈ names ∧ rtc (refs idx) n x ∧ tc (refs idx) x x.

(** The leaves met by a depth-first, left-to-right traversal of the group
    expansions of a list of names, repetitions included. *)
Inductive traversal (idx : index) : list string → list string → Prop :=
| traversal_nil : traversal idx [] []
| traversal_leaf n ns t :
    groups idx !! n = None →
    traversal idx ns t →
    traversal idx (n :: ns) (n :: t)
| traversal_group n members ns t1 t2 :
    groups idx !! n = Some members →
    traversal idx members t1 →
    traversal idx ns t2 →
    traversal idx (n :: ns) (t1 ++ t2)%list.

(** [r] lists the elements of [t] once each, in the order in which they
    first appear in [t]. *)
Definition first_seen_order (t r : list string) : Prop :=
  NoDup r ∧
  (∀ x, x ∈ r ↔ x ∈ t) ∧
  (∀ i j x y, r !! i = Some x → r !! j = Some y → (i < j)%nat →
     ∃ k, t !! k = Some x ∧ y ∉ take k t).

(** The value of the first [filename=] parameter of a Content-Disposition
    header: parameters are separated by semicolons and trimmed, the name is
    matched without regard to case, surrounding double quotes are removed. *)
Definition filename_param (cd : string) : option string :=
  (λ p, PyStr.strip (PyStr.is_char PyStr.dquote)
          (String.substring 9 (String.length p - 9) p)) <$>
  head (filter (λ p, PyStr.lower (String.substring 0 9 p) = "filename=")
          (PyStr.strip PyStr.is_space <$> PyStr.split ";" cd)).

(** The last path segment of the URL. *)
Definition last_segment `{Env} (url : string) : string :=
  default EmptyString (last (PyStr.split "/" (url_path url))).

(** Header parameter first, then the URL's last segment, then the default. *)
Definition derived_filename `{Env} (resp : response) (url : string) : string :=
  match (headers_get (resp_headers resp) "Content-Disposition"
           ≫= filename_param) with
  | Some f => f
  | None =>
      if decide (last_segment url = EmptyString) then Filename.default_name
      else last_segment url
  end.

(** The bytes a response stream delivers before it ends or breaks. *)
Fixpoint body (stream : list read_event) : bytes :=
  match stream with
  | [] => []
  | Fault :: _ => []
  | Data [] :: _ => []
  | Data chunk :: rest => (chunk ++ body rest)%list
  end.



(** The request a transfer of [url] sends from world [w]. *)
Definition request_of `{Env} (url : string) (w : world) : request :=
  Transfer.build_request url (default ∅ (tokens_file w)).

(** The server answers the transfer's request with [resp], and [target] is
    the file the transfer derives from it. *)
Definition answers `{Env} (url subdirectory : string) (w : world)
    (resp : response) (target : string) : Prop :=
  files w !! subdirectory = None ∧
  urlopen (request_of url w) = Some resp ∧
  target = joinpath subdirectory (derived_filename resp url).


(** The world a transfer is in once the request is out. *)
Definition requested `{Env} (url subdirectory : string) (w : world) : world :=
  record_request (request_of url w)
    (set_dirs (λ d, {[subdirectory]} ∪ d) w).

End Spec.

(** ** Invariants used in the proofs *)

Module Inv.
Import NameResolver Spec.

(** What holds whenever [expand] is entered: the names being visited are
    groups, there is fuel left for every group not yet on the path, and every
    name on the path leads to the names about to be expanded. *)
Definition pre (idx : index) (fuel : nat) (ns : list string) (st : xstate)
    : Prop :=
  visiting st ⊆ dom (groups idx) ∧
  (size (groups idx) < fuel + size (visiting st))%nat ∧
  (∀ n v, n ∈ ns → v ∈ visiting st → tc (refs idx) v n).

(** What holds when the expansion of the names [ns] ends. *)
Definition post (idx : index) (ns : list string) (st : xstate)
    (out : xstate * result unit) : Prop :=
  match out with
  | (st', Ok _) =>
      visiting st' = visiting st ∧
      (∃ t, traversal idx ns t ∧ expanded st' = (expanded st ++ t)%list) ∧
      acyclic_from idx ns
  | (st', Exit msg) =>
      ∃ n y, n ∈ ns ∧ msg = cycle_msg y ∧ y ∈ visiting st' ∧
             rtc (refs idx) n y ∧ tc (refs idx) y y
  | _ => False
  end.

(** The parts of the world a transfer leaves alone once its request is out:
    the two documents and the list of requests. *)
Definition untouched (w w' : world) : Prop :=
  tokens_file w' = tokens_file w ∧ index_file w' = index_file w ∧
  sent w' = sent w.


End Inv.

(** ** Sample data *)

Definition idx_gh : index :=
  {| models := ∅;
     groups := <["g" := ["a"; "h"]]> (<["h" := ["b"; "a"]]> ∅) |}.

Definition idx_xy : index :=
  {| models := ∅;
     groups := <["x" := ["y"]]> (<["y" := ["x"]]> ∅) |}.

(** A small environment to run the transfer in: one host, one archive, one
    plain file. *)
Definition sample_url (file : string) : string := "https://hf.example/" ++ file.

Definition sample_env : Env := {|
  hostname_of url :=
    if String.prefix "https://hf.example/" url then Some "hf.example"
    else None;
  url_path url :=
    if String.prefix "https://hf.example/" url
    then String.substring 18 (String.length url - 18) url
    else url;
  joinpath dir file := dir ++ "/" ++ file;
  urlopen req :=
    if decide (req_url req = sample_url "pack.zip")
    then Some {| resp_headers := [("Content-Length", "4")];
                 resp_stream := [Data [x50; x4b]; Data [x03; x04]] |}
    else if decide (req_url req = sample_url "notes.txt")
    then Some {| resp_headers := [];
                 resp_stream := [Data [x68; x69]] |}
    else None;
  int_of_string s := if decide (s = "4") then Some 4%Z else None;
  is_zip c := match c with x50 :: x4b :: _ => true | _ => false end;
  extractall c dir :=
    match c with
    | x50 :: x4b :: _ => Some [(dir ++ "/a.txt", [x61]); (dir ++ "/b.txt", [x62])]
    | _ => None
    end
|}.

Definition empty_world : world :=
  {| files := ∅; dirs := ∅; tokens_file := None; index_file := None;
     console := []; sent := [] |}.


(** A world in which [models/notes.txt] is already there. *)
Definition notes_world : world :=
  {| files := {["models/notes.txt" := [x6f; x6c; x64]]};
     dirs := {["models"]}; tokens_file := None; index_file := None;
     console := []; sent := [] |}.

Definition notes_response : response :=
  {| resp_headers := []; resp_stream := [Data [x68; x69]] |}.




(** ** Notions used by the further properties *)

(** The index a command works on: what [load_index] returns. *)
Definition loaded (w : world) : index :=
  default {| models := ∅; groups := ∅ |} (index_file w).

Definition unknown_msg (m : string) : string :=
  "Error: unknown model or group '" ++ m ++ "'".


(** [m] never leaves through [sys.exit]. *)
Definition no_exit {A} (m : M world A) : Prop :=
  ∀ w msg, (m w).2 ≠ Exit msg.

(** Two models, and the groups of the specification's example. *)
Definition idx_shop : index :=
  {| models :=
       <["a" := {| m_url := sample_url "notes.txt";
                   m_subdirectory := "models"; m_unzip := None |}]>
       (<["b" := {| m_url := sample_url "pack.zip";
                    m_subdirectory := "packs"; m_unzip := Some true |}]> ∅);
     groups := groups idx_gh |}.

Definition shop_world : world := set_index_file (Some idx_shop) empty_world.

(** A request that names a cyclic group. *)
Definition cyclic_args : Command.args :=
  {| Command.names := ["x"]; Command.url := None;
     Command.subdirectory := None; Command.jobs := None;
     Command.force := false; Command.unzip := false |}.

(** A request with a repeated group and a model. *)
Definition shop_args : Command.args :=
  {| Command.names := ["g"; "b"; "g"]; Command.url := None;
     Command.subdirectory := None; Command.jobs := None;
     Command.force := true; Command.unzip := false |}.


(** A server whose answers go wrong: a body that breaks off, a
    Content-Length that is no number, a file with the zip magic that cannot
    be unpacked. *)
Definition faulty_env : Env := {|
  hostname_of url := Some "h";
  url_path url := String.substring 8 (String.length url - 8) url;
  joinpath dir file := dir ++ "/" ++ file;
  urlopen req :=
    if decide (req_url req = "http://h/broken.bin")
    then Some {| resp_headers := [];
                 resp_stream := [Data [x01; x02]; Fault; Data [x03]] |}
    else if decide (req_url req = "http://h/weird.bin")
    then Some {| resp_headers := [("content-length", "12 bytes")];
                 resp_stream := [Data [x01]] |}
    else if decide (req_url req = "http://h/fake.zip")
    then Some {| resp_headers := []; resp_stream := [Data [x50; x4b]] |}
    else None;
  int_of_string s := None;
  is_zip c := match c with x50 :: x4b :: _ => true | _ => false end;
  extractall c dir := None
|}.

(** * Properties *)

(** ** The monad *)

Lemma bind_unfold {S A B} (m : M S A) (k : A → M S B) s :
  (m ≫= k) s =
    match m s with
    | (s', Ok a) => k a s'
    | (s', Exit msg) => (s', Exit msg)
    | (s', Raise e) => (s', Raise e)
    | (s', Diverge) => (s', Diverge)
    end.
Proof. reflexivity. Qed.

Lemma for_each_cons {S A} (body : A → M S unit) x l s :
  for_each body (x :: l) s =
    match body x s with
    | (s', Ok _) => for_each body l s'
    | (s', Exit msg) => (s', Exit msg)
    | (s', Raise e) => (s', Raise e)
    | (s', Diverge) => (s', Diverge)
    end.
Proof. reflexivity. Qed.

(** ** Group expansion *)

Section expansion.
Import NameResolver Spec Inv.
Context (idx : index).

Lemma expand_unfold fuel name st :
  expand (S fuel) idx name st =
    if bool_decide (name ∈ visiting st) then (st, Exit (cycle_msg name))
    else match groups idx !! name with
         | Some members =>
             match for_each (expand fuel idx) members
                     (print (group_trace name members)
                        (visiting_add name st)) with
             | (st', Ok _) => (visiting_remove name st', Ok tt)
             | (st', Exit msg) => (st', Exit msg)
             | (st', Raise e) => (st', Raise e)
             | (st', Diverge) => (st', Diverge)
             end
         | None => (expanded_append name st, Ok tt)
         end.
Proof.
  cbn [expand]. rewrite bind_unfold. cbn [gets].
  destruct (bool_decide _); [reflexivity|].
  destruct (groups idx !! name); reflexivity.
Qed.

Lemma refs_leaf n x : groups idx !! n = None → ¬ refs idx n x.
Proof. intros Hn (ms & Hms & _). congruence. Qed.

Lemma rtc_refs_leaf n x :
  groups idx !! n = None → rtc (refs idx) n x → x = n.
Proof.
  intros Hn Hr. destruct Hr as [|? y ? Hxy _]; [done|].
  by apply refs_leaf in Hxy.
Qed.

Lemma tc_refs_inv x z :
  tc (refs idx) x z →
  ∃ members m, groups idx !! x = Some members ∧ m ∈ members ∧
               rtc (refs idx) m z.
Proof.
  intros Ht. destruct Ht as [x z (ms & Hms & Hin)|x y z (ms & Hms & Hin) Hyz].
  - exists ms, z. done.
  - exists ms, y. split_and!; [done..|]. by apply tc_rtc.
Qed.

Lemma traversal_app ns1 ns2 t1 t2 :
  traversal idx ns1 t1 → traversal idx ns2 t2 →
  traversal idx (ns1 ++ ns2) (t1 ++ t2).
Proof.
  induction 1 as [|n ns t Hn _ IH|n ms ns t1' t2' Hn Hms _ _ IH]; intros H2.
  - done.
  - cbn. constructor; auto.
  - rewrite <- app_assoc. cbn. econstructor; eauto.
Qed.

Lemma traversal_functional ns t1 t2 :
  traversal idx ns t1 → traversal idx ns t2 → t1 = t2.
Proof.
  intros H1. revert t2.
  induction H1 as [|n ns t Hn _ IH|n ms ns t1' t2' Hn _ IH1 _ IH2];
    intros t2 H2; inversion H2; subst; try congruence.
  - f_equal. auto.
  - assert (ms = members) by congruence. subst.
    f_equal; auto.
Qed.

(** *** The deduplication loop *)

Lemma dedup_loop_acc seen result l :
  dedup_loop seen result l = (result ++ dedup_loop seen [] l)%list.
Proof.
  revert seen result. induction l as [|n l IH]; intros seen result; cbn.
  - by rewrite app_nil_r.
  - case_decide.
    + apply IH.
    + rewrite IH, (IH _ [n]). by rewrite <- app_assoc.
Qed.

Lemma dedup_loop_cons seen n l :
  dedup_loop seen [] (n :: l) =
    if decide (n ∈ seen) then dedup_loop seen [] l
    else n :: dedup_loop ({[n]} ∪ seen) [] l.
Proof. cbn. case_decide; [done|]. by rewrite dedup_loop_acc. Qed.

Lemma elem_of_dedup_loop seen l x :
  x ∈ dedup_loop seen [] l ↔ x ∈ l ∧ x ∉ seen.
Proof.
  revert seen. induction l as [|n l IH]; intros seen.
  - cbn. split; [by intros ?%elem_of_nil|by intros [?%elem_of_nil _]].
  - rewrite dedup_loop_cons. case_decide as Hn.
    + rewrite IH, elem_of_cons. split; [tauto|].
      intros [[->|?] ?]; tauto.
    + rewrite !elem_of_cons, IH, not_elem_of_union, not_elem_of_singleton.
      split.
      * intros [->|(? & ? & ?)]; tauto.
      * intros [[->|?] ?]; [tauto|].
        destruct (decide (x = n)); tauto.
Qed.

Lemma NoDup_dedup_loop seen l : NoDup (dedup_loop seen [] l).
Proof.
  revert seen. induction l as [|n l IH]; intros seen.
  - constructor.
  - rewrite dedup_loop_cons. case_decide; [apply IH|].
    constructor; [|apply IH].
    rewrite elem_of_dedup_loop. set_solver.
Qed.

Lemma dedup_loop_order seen l i j x y :
  dedup_loop seen [] l !! i = Some x →
  dedup_loop seen [] l !! j = Some y →
  (i < j)%nat →
  ∃ k, l !! k = Some x ∧ y ∉ take k l.
Proof.
  revert seen i j. induction l as [|n l IH]; intros seen i j; [done|].
  rewrite dedup_loop_cons. case_decide as Hn.
  - intros Hi Hj Hij. destruct (IH _ _ _ Hi Hj Hij) as (k & Hk & Hy).
    exists (S k). split; [done|]. cbn. rewrite not_elem_of_cons.
    split; [|done]. intros ->.
    apply list_elem_of_lookup_2, elem_of_dedup_loop in Hj. tauto.
  - destruct i as [|i]; intros Hi Hj Hij.
    + exists 0%nat. cbn in *. split; [done|]. apply not_elem_of_nil.
    + destruct j as [|j]; [lia|]. cbn in Hi, Hj.
      destruct (IH _ _ _ Hi Hj ltac:(lia)) as (k & Hk & Hy).
      exists (S k). split; [done|]. cbn. rewrite not_elem_of_cons.
      split; [|done]. intros ->.
      apply list_elem_of_lookup_2, elem_of_dedup_loop in Hj. set_solver.
Qed.

Lemma dedup_loop_first_seen l : first_seen_order l (dedup_loop ∅ [] l).
Proof.
  split_and!.
  - apply NoDup_dedup_loop.
  - intros x. rewrite elem_of_dedup_loop. set_solver.
  - intros i j x y. apply dedup_loop_order.
Qed.

(** *** The recursion *)

Lemma loop_post fuel :
  (∀ name st, pre idx fuel [name] st →
              post idx [name] st (expand fuel idx name st)) →
  ∀ ns st, pre idx fuel ns st →
           post idx ns st (for_each (expand fuel idx) ns st).
Proof.
  intros Hbody ns. induction ns as [|m ns IH]; intros st (Hdom & Hsz & Hpath).
  - cbn. split_and!; [done| |].
    + exists []. split; [constructor|by rewrite app_nil_r].
    + intros n x Hn. set_solver.
  - rewrite for_each_cons.
    assert (pre idx fuel [m] st) as Hm.
    { split_and!; [done..|]. intros n v ->%list_elem_of_singleton.
      apply Hpath. set_solver. }
    specialize (Hbody m st Hm).
    destruct (expand fuel idx m st) as [st1 [[]|msg|e|]]; cbn in Hbody;
      try done.
    + destruct Hbody as (Hv1 & (t1 & Ht1 & He1) & Hac1).
      assert (pre idx fuel ns st1) as Hns.
      { unfold pre. rewrite Hv1. split_and!; [done..|].
        intros n v Hn. apply Hpath. set_solver. }
      specialize (IH st1 Hns).
      destruct (for_each (expand fuel idx) ns st1) as [st2 [[]|msg|e|]];
        cbn in IH; try done.
      * destruct IH as (Hv2 & (t2 & Ht2 & He2) & Hac2). cbn.
        split_and!; [congruence| |].
        -- exists (t1 ++ t2)%list. split.
           ++ apply (traversal_app [m] ns); done.
           ++ rewrite He2, He1. by rewrite app_assoc.
        -- intros n x [->|Hn]%elem_of_cons.
           ++ apply Hac1. set_solver.
           ++ by apply Hac2.
      * destruct IH as (n & y & Hn & -> & Hy & Hr & Hc). cbn.
        exists n, y. split_and!; [set_solver|done..].
    + destruct Hbody as (n & y & Hn & -> & Hy & Hr & Hc).
      exists n, y. split_and!; [set_solver|done..].
Qed.

Lemma expand_post fuel name st :
  pre idx fuel [name] st → post idx [name] st (expand fuel idx name st).
Proof.
  revert name st. induction fuel as [|fuel IH]; intros name st Hpre.
  { destruct Hpre as (Hdom & Hsz & _).
    apply subseteq_size in Hdom. rewrite size_dom in Hdom. lia. }
  destruct Hpre as (Hdom & Hsz & Hpath).
  rewrite expand_unfold. case_bool_decide as Hvis.
  { exists name, name. split_and!; [set_solver|done|done|done|].
    apply Hpath; [set_solver|done]. }
  destruct (groups idx !! name) as [members|] eqn:Hg; cbn.
  - set (st1 := print _ _).
    assert (pre idx fuel members st1) as Hpre1.
    { unfold pre, st1. cbn. split_and!.
      - apply union_subseteq. split; [|done].
        apply singleton_subseteq_l, elem_of_dom. eauto.
      - rewrite size_union by set_solver. rewrite size_singleton. lia.
      - intros m v Hm [->%elem_of_singleton|Hv]%elem_of_union.
        + apply tc_once. exists members. done.
        + apply tc_r with name; [|by exists members].
          apply Hpath; [apply list_elem_of_singleton; done|done]. }
    pose proof (loop_post fuel IH members st1 Hpre1) as Hloop.
    destruct (for_each (expand fuel idx) members st1) as [st2 [[]|msg|e|]];
      cbn in Hloop; try done.
    + destruct Hloop as (Hv & (t & Ht & He) & Hac). cbn.
      split_and!.
      * rewrite Hv. unfold st1. cbn. set_solver.
      * exists t. split; [|done].
        rewrite <- (app_nil_r t). econstructor; [done..|constructor].
      * intros n x ->%list_elem_of_singleton Hr Hc.
        apply rtc_inv in Hr as [<-|(m & (ms & Hms & Hm) & Hr)].
        -- apply tc_refs_inv in Hc as (ms & m & Hms & Hm & Hr).
           assert (ms = members) as -> by congruence.
           eapply (Hac m name); [done..|].
           eapply tc_rtc_r; [apply tc_once; exists members; done|done].
        -- assert (ms = members) as -> by congruence.
           by apply (Hac m x).
    + destruct Hloop as (m & y & Hm & -> & Hy & Hr & Hc).
      exists name, y. split_and!; [set_solver|done|done| |done].
      eapply rtc_l; [|done]. exists members. done.
  - split_and!; [done| |].
    + exists [name]. split; [|done]. by repeat constructor.
    + intros n x ->%list_elem_of_singleton Hr Hc.
      apply rtc_refs_leaf in Hr as ->; [|done].
      apply tc_refs_inv in Hc as (ms & ? & ? & _). congruence.
Qed.

Lemma run_post names :
  post idx names init (for_each (expand (depth_bound idx) idx) names init).
Proof.
  apply loop_post; [intros; by apply expand_post|].
  split_and!; cbn.
  - set_solver.
  - unfold depth_bound. lia.
  - set_solver.
Qed.

(** The leaves of a traversal are exactly the non-group names that the
    requested names lead to. *)
Lemma elem_of_traversal ns t x :
  traversal idx ns t →
  x ∈ t ↔ ∃ n, n ∈ ns ∧ rtc (refs idx) n x ∧ groups idx !! x = None.
Proof.
  induction 1 as [|n ns t Hn _ IH|n ms ns t1 t2 Hn _ IH1 _ IH2].
  - set_solver.
  - rewrite elem_of_cons, IH. split.
    + intros [->|(m & Hm & Hr & Hx)].
      * exists n. split_and!; [set_solver|done..].
      * exists m. split_and!; [set_solver|done..].
    + intros (m & [->|Hm]%elem_of_cons & Hr & Hx).
      * left. by apply rtc_refs_leaf in Hr.
      * right. eauto.
  - rewrite elem_of_app, IH1, IH2. split.
    + intros [(m & Hm & Hr & Hx)|(m & Hm & Hr & Hx)].
      * exists n. split_and!; [set_solver| |done].
        eapply rtc_l; [|done]. exists ms. done.
      * exists m. split_and!; [set_solver|done..].
    + intros (m & [->|Hm]%elem_of_cons & Hr & Hx).
      * left. apply rtc_inv in Hr as [->|(m' & (ms' & Hms' & Hm') & Hr)].
        { congruence. }
        assert (ms' = ms) as -> by congruence. eauto.
      * right. eauto.
Qed.

End expansion.

(** [expand_names] always ends, and only by returning or by [sys.exit]: the
    fuel of the embedding is never used up and nothing is raised. *)
Lemma expand_names_returns idx names :
  (∃ r, (NameResolver.expand_names idx names).2 = Ok r) ∨
  (∃ msg, (NameResolver.expand_names idx names).2 = Exit msg).
Proof.
  unfold NameResolver.expand_names. pose proof (run_post idx names) as Hp.
  destruct (for_each _ names _) as [st [[]|msg|e|]]; cbn in *; try done.
  - left. by eexists.
  - right. by eexists.
Qed.

Lemma expand_names_ok_acyclic idx names r :
  (NameResolver.expand_names idx names).2 = Ok r → Spec.acyclic_from idx names.
Proof.
  unfold NameResolver.expand_names. pose proof (run_post idx names) as Hp.
  destruct (for_each _ names _) as [st [[]|msg|e|]]; cbn in *; try done.
  tauto.
Qed.

(** C1.  When no cyclic group reference can be reached from the requested
    names, [expand_names] returns a list [r] without repetitions that holds
    exactly the leaves (the reachable names that are not groups), in the
    order in which the depth-first, left-to-right traversal of the group
    expansions first meets them. *)
Theorem expand_names_first_seen (idx : index) (names : list string) :
  Spec.acyclic_from idx names →
  ∃ t r,
    Spec.traversal idx names t ∧
    (NameResolver.expand_names idx names).2 = Ok r ∧
    Spec.first_seen_order t r ∧
    (∀ x, x ∈ r ↔ ∃ n, n ∈ names ∧ rtc (Spec.refs idx) n x ∧
                        groups idx !! x = None).
Proof.
  intros Hac. unfold NameResolver.expand_names.
  pose proof (run_post idx names) as Hp.
  destruct (for_each _ names _) as [st [[]|msg|e|]]; cbn in *; try done.
  - destruct Hp as (_ & (t & Ht & He) & _). cbn in He.
    exists t, (NameResolver.dedup_loop ∅ [] t).
    rewrite He. pose proof (dedup_loop_first_seen t) as Hfs.
    split_and!; [done..|].
    intros x. destruct Hfs as (_ & -> & _). by apply elem_of_traversal.
  - destruct Hp as (n & y & Hn & _ & _ & Hr & Hc). by destruct (Hac n y).
Qed.

Lemma expand_names_first_seen_witness :
  Spec.acyclic_from idx_gh ["g"] ∧
  (NameResolver.expand_names idx_gh ["g"]).2 = Ok ["a"; "b"] ∧
  ∃ t r,
    Spec.traversal idx_gh ["g"] t ∧
    (NameResolver.expand_names idx_gh ["g"]).2 = Ok r ∧
    Spec.first_seen_order t r ∧
    (∀ x, x ∈ r ↔ ∃ n, n ∈ ["g"] ∧ rtc (Spec.refs idx_gh) n x ∧
                        groups idx_gh !! x = None).
Proof.
  assert (Spec.acyclic_from idx_gh ["g"]) as Hac.
  { apply (expand_names_ok_acyclic _ _ ["a"; "b"]). vm_compute. reflexivity. }
  split; [exact Hac|]. split; [vm_compute; reflexivity|].
  apply (expand_names_first_seen idx_gh ["g"]). exact Hac.
Defined.



Example expand_gh :
  NameResolver.expand_names idx_gh ["g"] =
    (["Group 'g' expanded to: a h"; "Group 'h' expanded to: b a"],
     Ok ["a"; "b"]).
Proof. vm_compute. reflexivity. Qed.

(** ** Filename derivation *)

Section filename.
Import PyStr.

Lemma lower_char_eq_sign c : lower_char c = "="%char ↔ c = "="%char.
Proof.
  destruct c as [[] [] [] [] [] [] [] []]; vm_compute; split; congruence.
Qed.

Lemma lower_substring s n m :
  lower (String.substring n m s) = String.substring n m (lower s).
Proof.
  revert n m.
  induction s as [|c s IH]; intros [|n] [|m]; cbn; rewrite ?IH; done.
Qed.

Lemma substring_all s : String.substring 0 (String.length s) s = s.
Proof. induction s as [|c s IH]; cbn; [done|]. by rewrite IH. Qed.

Lemma startswith_lower_spec part :
  startswith (lower part) "filename=" = true ↔
  lower (String.substring 0 9 part) = "filename=".
Proof.
  unfold startswith. rewrite lower_substring.
  split.
  - intros Hp. by apply prefix_correct in Hp.
  - intros Hp. by apply prefix_correct.
Qed.

Lemma split1_cons_ne sep c s :
  c ≠ sep →
  split1 sep (String c s) !! 1%nat = split1 sep s !! 1%nat.
Proof.
  intros Hc. cbn. rewrite decide_False by done.
  destruct s as [|d s]; [done|]. cbn. case_decide; [done|].
  by destruct (split1 sep s).
Qed.

Lemma split1_after_key part :
  lower (String.substring 0 9 part) = "filename=" →
  split1 "=" part !! 1%nat
    = Some (String.substring 9 (String.length part - 9) part).
Proof.
  intros Hp.
  do 9 (destruct part as [|? part]; [discriminate Hp|]).
  cbn in Hp. injection Hp as H0 H1 H2 H3 H4 H5 H6 H7 H8 _.
  apply lower_char_eq_sign in H8 as ->.
  repeat (rewrite split1_cons_ne;
          [|intros Heq; apply lower_char_eq_sign in Heq; congruence]).
  cbn [split1]. rewrite decide_True by done.
  cbn [lookup list_lookup String.length Nat.sub String.substring].
  replace (String.length part - 0)%nat with (String.length part) by lia.
  by rewrite substring_all.
Qed.

Lemma scan_parts_spec parts :
  Filename.scan_parts parts =
    (λ p, Ok (strip (is_char dquote)
                (String.substring 9 (String.length p - 9) p))) <$>
    head (filter (λ p, lower (String.substring 0 9 p) = "filename=")
            (strip is_space <$> parts)).
Proof.
  induction parts as [|part parts IH]; [done|].
  cbn [Filename.scan_parts fmap list_fmap]. rewrite filter_cons.
  destruct (startswith _ _) eqn:Hs.
  - apply startswith_lower_spec in Hs. rewrite decide_True by done.
    cbn. by rewrite split1_after_key.
  - rewrite decide_False; [done|].
    intros Hp%startswith_lower_spec. congruence.
Qed.

Lemma truthy_spec s : truthy s = true ↔ s ≠ EmptyString.
Proof.
  unfold truthy. case_bool_decide; cbn; split; congruence.
Qed.

Lemma get_filename_derived `{Env} resp url :
  Filename.get_filename_from_response resp url
    = Ok (Spec.derived_filename resp url).
Proof.
  unfold Filename.get_filename_from_response, Spec.derived_filename.
  assert (Ok (if truthy (basename (url_path url))
              then basename (url_path url) else Filename.default_name)
          = Ok (if decide (Spec.last_segment url = EmptyString)
                then Filename.default_name else Spec.last_segment url))
    as Hfb.
  { unfold Spec.last_segment, basename.
    destruct (truthy _) eqn:Ht.
    - apply truthy_spec in Ht. by rewrite decide_False.
    - case_decide as Hd; [done|].
      apply truthy_spec in Hd. congruence. }
  destruct (headers_get _ _) as [cd|]; cbn; [|done].
  unfold Spec.filename_param. destruct (truthy cd) eqn:Hcd.
  - rewrite scan_parts_spec.
    by destruct (head _).
  - assert (cd = EmptyString) as ->.
    { destruct cd; [done|]. discriminate Hcd. }
    done.
Qed.

End filename.


(** ** One transfer *)

Section transfer.
Import Transfer Spec.
Context `{E : Env}.

Lemma world_eq w w' :
  files w = files w' → dirs w = dirs w' →
  tokens_file w = tokens_file w' → index_file w = index_file w' →
  console w = console w' → sent w = sent w' → w = w'.
Proof. destruct w, w'; cbn; intros; by subst. Qed.


Lemma download_file_unfold name url sub force unzip w :
  download_file name url sub force unzip w =
    if bool_decide (is_Some (files w !! sub)) then (w, Raise FileExistsError)
    else match urlopen (request_of url w) with
         | Some resp =>
             receive name url sub force unzip resp (requested url sub w)
         | None => (requested url sub w, Raise URLError)
         end.
Proof.
  unfold download_file, load_tokens, ensure_parent_dir, request_of, requested.
  rewrite !bind_unfold. cbn [gets]. rewrite !bind_unfold. cbn [gets].
  destruct (bool_decide _); [reflexivity|].
  cbn [modify]. rewrite !bind_unfold. cbn [modify].
  unfold request_of. cbn [tokens_file set_dirs].
  destruct (urlopen _); reflexivity.
Qed.





(** *** The extraction step *)





(** *** What a transfer leaves alone *)

#[local] Instance untouched_refl : Reflexive Inv.untouched.
Proof. by intros w. Qed.

#[local] Instance untouched_trans : Transitive Inv.untouched.
Proof.
  intros w1 w2 w3 (? & ? & ?) (? & ? & ?). unfold Inv.untouched.
  split_and!; congruence.
Qed.













End transfer.








(** ** The Authorization header *)








(** ** The ad-hoc download *)




(** ** Sample runs *)

Example expand_xy :
  NameResolver.expand_names idx_xy ["x"] =
    (["Group 'x' expanded to: y"; "Group 'y' expanded to: x"],
     Exit "Error: cyclic group reference detected at 'x'").
Proof. vm_compute. reflexivity. Qed.

Example filename_any_case :
  @Filename.get_filename_from_response sample_env
    {| resp_headers := [("content-disposition", "inline; FileName=model.bin ")];
       resp_stream := [] |} (sample_url "pack.zip") = Ok "model.bin".
Proof. vm_compute. reflexivity. Qed.

Example filename_from_url :
  @Filename.get_filename_from_response sample_env
    {| resp_headers := [("Content-Disposition", "inline")];
       resp_stream := [] |} (sample_url "sets/pack.zip") = Ok "pack.zip".
Proof. vm_compute. reflexivity. Qed.

Example filename_default :
  @Filename.get_filename_from_response sample_env
    {| resp_headers := []; resp_stream := [] |} (sample_url "sets/")
    = Ok "downloaded.file".
Proof. vm_compute. reflexivity. Qed.

Example download_skip :
  @Transfer.download_file sample_env "notes" (sample_url "notes.txt") "models"
    false true notes_world =
    ({| files := {["models/notes.txt" := [x6f; x6c; x64]]};
        dirs := {["models"]} ∪ {["models"]};
        tokens_file := None; index_file := None;
        console := [Out "[notes] Skipping (exists): models/notes.txt"];
        sent := [Request (sample_url "notes.txt")] |},
     Ok "models/notes.txt").
Proof. vm_compute. reflexivity. Qed.

(** * Further properties *)

(** ** Group expansion: leaves, unfolding, idempotence *)

Section expansion_more.
Import NameResolver Spec Inv.
Context (idx : index).

(** Names that are not groups are appended as they come. *)
Lemma for_each_leaves fuel names st :
  (∀ n, n ∈ names → groups idx !! n = None ∧ n ∉ visiting st) →
  for_each (expand (S fuel) idx) names st =
    ({| expanded := (expanded st ++ names)%list; visiting := visiting st;
        printed := printed st |}, Ok tt).
Proof.
  revert st. induction names as [|n names IH]; intros st Hleaf.
  - cbn. unfold mret, M_ret, ret. rewrite app_nil_r. by destruct st.
  - rewrite for_each_cons, expand_unfold.
    destruct (Hleaf n) as [Hn Hv]; [by left|].
    rewrite bool_decide_eq_false_2 by done. rewrite Hn.
    rewrite IH.
    + cbn. by rewrite <- app_assoc.
    + intros m Hm. apply Hleaf. by right.
Qed.

Lemma dedup_loop_NoDup seen l :
  NoDup l → (∀ x, x ∈ l → x ∉ seen) → dedup_loop seen [] l = l.
Proof.
  revert seen. induction l as [|n l IH]; intros seen Hnd Hseen; [done|].
  apply NoDup_cons in Hnd as [Hn Hnd].
  rewrite dedup_loop_cons, decide_False by (apply Hseen; by left).
  f_equal. apply IH; [done|].
  intros x Hx. rewrite not_elem_of_union, not_elem_of_singleton. split.
  - intros ->. done.
  - apply Hseen. by right.
Qed.

(** What a returned list is: the deduplicated traversal, and no cycle in
    reach. *)
Lemma expand_names_ok_iff names r :
  (expand_names idx names).2 = Ok r ↔
  acyclic_from idx names ∧
  ∃ t, traversal idx names t ∧ r = dedup_loop ∅ [] t.
Proof.
  unfold expand_names. pose proof (run_post idx names) as Hp.
  destruct (for_each _ names _) as [st [[]|msg|e|]]; cbn in *; try done.
  - destruct Hp as (_ & (t & Ht & He) & Hac). cbn in He. split.
    + intros [= <-]. split; [done|]. exists t. by rewrite He.
    + intros (_ & t' & Ht' & ->).
      rewrite He, (traversal_functional idx names t t'); done.
  - destruct Hp as (n & y & Hn & _ & _ & Hr & Hc). split; [done|].
    intros (Hac & _). by destruct (Hac n y).
Qed.

Lemma traversal_group_iff g members t :
  groups idx !! g = Some members →
  traversal idx [g] t ↔ traversal idx members t.
Proof.
  intros Hg. split.
  - intros Ht. inversion Ht as [|? ? ? Hn|? ms ? t1 t2 Hms Ht1 Ht2]; subst.
    + congruence.
    + inversion Ht2; subst. rewrite app_nil_r.
      assert (ms = members) as -> by congruence. done.
  - intros Ht. rewrite <- (app_nil_r t).
    econstructor; [done..|constructor].
Qed.

Lemma acyclic_group_iff g members :
  groups idx !! g = Some members →
  acyclic_from idx [g] ↔ acyclic_from idx members.
Proof.
  intros Hg. split.
  - intros Hac m x Hm Hr. apply (Hac g x); [by left|].
    eapply rtc_l; [|done]. by exists members.
  - intros Hac n x ->%list_elem_of_singleton Hr Hc.
    apply rtc_inv in Hr as [<-|(m & (ms & Hms & Hm) & Hr)].
    + apply tc_refs_inv in Hc as (ms & m & Hms & Hm & Hr).
      assert (ms = members) as -> by congruence.
      apply (Hac m g); [done..|].
      eapply tc_rtc_r; [apply tc_once; by exists members|done].
    + assert (ms = members) as -> by congruence. by apply (Hac m x).
Qed.

Lemma run_leaves names :
  (∀ n, n ∈ names → groups idx !! n = None) →
  for_each (expand (depth_bound idx) idx) names init =
    ({| expanded := names; visiting := ∅; printed := [] |}, Ok tt).
Proof.
  intros Hleaf. unfold depth_bound. rewrite for_each_leaves; [done|].
  intros n Hn. split; [by apply Hleaf|]. cbn. apply not_elem_of_empty.
Qed.

End expansion_more.

(** X1.  Requested names that are not groups pass through unchecked: the
    result is the requested list without its repetitions, whether or not the
    names are registered models, and nothing is printed. *)
Theorem expand_names_leaves (idx : index) (names : list string) :
  (∀ n, n ∈ names → groups idx !! n = None) →
  NameResolver.expand_names idx names
    = ([], Ok (NameResolver.dedup_loop ∅ [] names)).
Proof.
  intros Hleaf. unfold NameResolver.expand_names.
  by rewrite run_leaves.
Qed.

Lemma expand_names_leaves_witness :
  NameResolver.expand_names idx_gh ["b"; "zz"; "b"] = ([], Ok ["b"; "zz"]).
Proof.
  rewrite (expand_names_leaves idx_gh ["b"; "zz"; "b"]).
  - vm_compute. reflexivity.
  - intros n Hn. repeat (apply elem_of_cons in Hn as [->|Hn]);
      [reflexivity..|]. by apply elem_of_nil in Hn.
Defined.

(** X2.  A group name stands for its member list: requesting the group
    returns a list exactly when requesting its members does, and then the
    same list. *)
Theorem expand_names_group_unfold (idx : index) (g : string)
    (members r : list string) :
  groups idx !! g = Some members →
  (NameResolver.expand_names idx [g]).2 = Ok r ↔
  (NameResolver.expand_names idx members).2 = Ok r.
Proof.
  intros Hg. rewrite !expand_names_ok_iff.
  rewrite (acyclic_group_iff idx g members Hg).
  split; intros (Hac & t & Ht & ->); (split; [done|]); exists t;
    (split; [|done]); by apply (traversal_group_iff idx g members).
Qed.

Lemma expand_names_group_unfold_witness :
  (NameResolver.expand_names idx_gh ["a"; "h"]).2 = Ok ["a"; "b"].
Proof.
  apply (expand_names_group_unfold idx_gh "g" ["a"; "h"] ["a"; "b"]).
  - reflexivity.
  - vm_compute. reflexivity.
Defined.

(** X3.  Expansion is idempotent: a returned list holds no group names and
    no repetitions, so expanding it again returns it unchanged and prints
    nothing. *)
Theorem expand_names_idempotent (idx : index) (names r : list string) :
  (NameResolver.expand_names idx names).2 = Ok r →
  (∀ x, x ∈ r → groups idx !! x = None) ∧
  NameResolver.expand_names idx r = ([], Ok r).
Proof.
  intros (Hac & t & Ht & ->)%expand_names_ok_iff.
  destruct (dedup_loop_first_seen t) as (Hnd & Hin & _).
  assert (∀ x, x ∈ NameResolver.dedup_loop ∅ [] t → groups idx !! x = None)
    as Hleaf.
  { intros x Hx%Hin.
    apply (elem_of_traversal idx names t x Ht) in Hx as (n & _ & _ & Hx).
    done. }
  split; [done|].
  unfold NameResolver.expand_names. rewrite run_leaves by done. cbn.
  rewrite dedup_loop_NoDup; [done|done|].
  intros x _. apply not_elem_of_empty.
Qed.

Lemma expand_names_idempotent_witness :
  NameResolver.expand_names idx_gh ["a"; "b"] = ([], Ok ["a"; "b"]).
Proof.
  apply (expand_names_idempotent idx_gh ["g"] ["a"; "b"]).
  vm_compute. reflexivity.
Defined.

(** ** The [group] command *)

Section registry.
Import NameResolver Spec Registry.

Lemma check_members idx members (w : world) :
  for_each (λ m, if known idx m then mret tt
                 else sys_exit (S:=world) (unknown_msg m)) members w =
    match List.find (λ m, negb (known idx m)) members with
    | Some m => (w, Exit (unknown_msg m))
    | None => (w, Ok tt)
    end.
Proof.
  induction members as [|m members IH]; [done|].
  rewrite for_each_cons. cbn [List.find].
  destruct (known idx m); cbn; [apply IH|done].
Qed.

Lemma cmd_group_save_run g members w :
  members ≠ [] →
  cmd_group g members w =
    match List.find (λ m, negb (known (loaded w) m)) members with
    | Some m => (w, Exit (unknown_msg m))
    | None =>
        (emit (Out ("Saved group '" ++ g ++ "': "
                    ++ String.concat " " members))
           (set_index_file
              (Some (set_groups (<[g := members]> (groups (loaded w)))
                       (loaded w))) w),
         Ok tt)
    end.
Proof.
  intros Hne. unfold cmd_group. rewrite bind_unfold. unfold load_index.
  cbn [gets]. fold (loaded w).
  destruct members as [|m0 members]; [done|].
  rewrite bind_unfold.
  change (for_each _ (m0 :: members) w) with
    (for_each (λ m, if known (loaded w) m then mret tt
                    else sys_exit (S:=world) (unknown_msg m))
       (m0 :: members) w).
  rewrite check_members.
  by destruct (List.find _ _).
Qed.

Lemma find_first_unknown idx (before after : list string) m :
  (∀ x, x ∈ before → known idx x = true) → known idx m = false →
  List.find (λ m, negb (known idx m)) (before ++ m :: after) = Some m.
Proof.
  intros Hb Hm. induction before as [|b before IH]; cbn.
  - by rewrite Hm.
  - rewrite (Hb b) by (by left). cbn. apply IH.
    intros x Hx. apply Hb. by right.
Qed.

Lemma find_all_known idx (members : list string) :
  (∀ x, x ∈ members → known idx x = true) →
  List.find (λ m, negb (known idx m)) members = None.
Proof.
  intros Hk. induction members as [|b members IH]; [done|]. cbn.
  rewrite (Hk b) by (by left). cbn. apply IH.
  intros x Hx. apply Hk. by right.
Qed.

Lemma expand_names_exit_cycle idx names :
  cyclic_from idx names →
  ∃ y, (expand_names idx names).2 = Exit (cycle_msg y).
Proof.
  intros (n & x & Hn & Hr & Hc). unfold expand_names.
  pose proof (run_post idx names) as Hp.
  destruct (for_each _ names _) as [st [[]|msg|e|]]; cbn in *; try done.
  - destruct Hp as (_ & _ & Hac). by destruct (Hac n x).
  - destruct Hp as (_ & y & _ & -> & _). by exists y.
Qed.

End registry.

(** X4.  [group -g g m1 m2 ...] is refused at the first member that is
    neither a registered model nor a group: the command exits naming that
    member and the world, index file included, is left exactly as it was. *)
Theorem cmd_group_unknown_member (g : string) (before after : list string)
    (m : string) (w : world) :
  (∀ x, x ∈ before → Registry.known (loaded w) x = true) →
  Registry.known (loaded w) m = false →
  Registry.cmd_group g (before ++ m :: after) w
    = (w, Exit ("Error: unknown model or group '" ++ m ++ "'")).
Proof.
  intros Hb Hm. rewrite cmd_group_save_run by (by destruct before).
  by rewrite (find_first_unknown _ before after m).
Qed.

(** X5.  When every member is known, [group -g g members] saves the index
    with [g] bound to exactly that list; models, other groups, files and
    tokens stay as they were, and from then on requesting [g] resolves to
    whatever requesting its members resolves to. *)
Theorem cmd_group_saves (g : string) (members : list string) (w : world) :
  members ≠ [] →
  (∀ x, x ∈ members → Registry.known (loaded w) x = true) →
  ∃ w' idx',
    Registry.cmd_group g members w = (w', Ok tt) ∧
    index_file w' = Some idx' ∧
    models idx' = models (loaded w) ∧
    groups idx' = <[g := members]> (groups (loaded w)) ∧
    files w' = files w ∧ tokens_file w' = tokens_file w ∧ sent w' = sent w ∧
    (∀ r, (NameResolver.expand_names idx' [g]).2 = Ok r ↔
          (NameResolver.expand_names idx' members).2 = Ok r).
Proof.
  intros Hne Hk. rewrite cmd_group_save_run by done.
  rewrite find_all_known by done.
  eexists. eexists. split; [reflexivity|]. cbn. split_and!; try done.
  intros r. rewrite !expand_names_ok_iff.
  set (idx' := Registry.set_groups _ _).
  assert (groups idx' !! g = Some members) as Hg.
  { unfold idx'. cbn. apply lookup_insert_eq. }
  rewrite (acyclic_group_iff idx' g members Hg).
  split; intros (Hac & t & Ht & ->); (split; [done|]); exists t;
    (split; [|done]); by apply (traversal_group_iff idx' g members).
Qed.

(** X6.  The membership check does not look for cycles: a group may be
    saved with itself among its members (once its name is known), and every
    later expansion of it exits with the cycle error. *)
Theorem cmd_group_accepts_cycle (g : string) (members : list string)
    (w : world) :
  g ∈ members →
  (∀ x, x ∈ members → Registry.known (loaded w) x = true) →
  ∃ w' idx' y,
    Registry.cmd_group g members w = (w', Ok tt) ∧
    index_file w' = Some idx' ∧
    (NameResolver.expand_names idx' [g]).2
      = Exit (NameResolver.cycle_msg y).
Proof.
  intros Hg Hk.
  rewrite cmd_group_save_run by (intros ->; by apply elem_of_nil in Hg).
  rewrite find_all_known by done.
  set (idx' := Registry.set_groups _ _).
  destruct (expand_names_exit_cycle idx' [g]) as (y & Hy).
  { exists g, g. split_and!; [by left|done|].
    apply tc_once. exists members. split; [|done].
    unfold idx'. cbn. apply lookup_insert_eq. }
  eexists. exists idx', y. split; [reflexivity|]. cbn. done.
Qed.

(** X7.  [group -g g] with no members deletes an existing group and saves
    the index; models and the other groups are kept, and the name is from
    then on treated as a plain resource name.  Deleting a group that does not
    exist exits and changes nothing. *)
Theorem cmd_group_delete (g : string) (w : world) :
  match groups (loaded w) !! g with
  | Some _ =>
      ∃ w' idx',
        Registry.cmd_group g [] w = (w', Ok tt) ∧
        index_file w' = Some idx' ∧
        models idx' = models (loaded w) ∧
        groups idx' = delete g (groups (loaded w)) ∧
        NameResolver.expand_names idx' [g] = ([], Ok [g])
  | None =>
      Registry.cmd_group g [] w
        = (w, Exit ("Error: group '" ++ g ++ "' does not exist"))
  end.
Proof.
  unfold Registry.cmd_group. rewrite bind_unfold. unfold load_index.
  cbn [gets]. fold (loaded w).
  destruct (groups (loaded w) !! g) as [old|] eqn:Hg; [|done].
  eexists. eexists. split; [reflexivity|]. cbn. split_and!; try done.
  unfold NameResolver.expand_names. rewrite run_leaves; [done|].
  intros n ->%list_elem_of_singleton. cbn. apply lookup_delete_eq.
Qed.

(** X8.  Saving a new group and deleting it again restores the index: the
    index file then holds the index the first command loaded. *)
Theorem cmd_group_save_delete (g : string) (members : list string)
    (w w1 : world) :
  members ≠ [] →
  groups (loaded w) !! g = None →
  Registry.cmd_group g members w = (w1, Ok tt) →
  ∃ w2, Registry.cmd_group g [] w1 = (w2, Ok tt) ∧
        index_file w2 = Some (loaded w).
Proof.
  intros Hne Hfresh Hsave. rewrite cmd_group_save_run in Hsave by done.
  destruct (List.find _ _); [done|]. injection Hsave as <-.
  unfold Registry.cmd_group. rewrite bind_unfold. unfold load_index.
  cbn [gets index_file emit set_index_file default]. unfold id.
  cbn [groups Registry.set_groups]. rewrite lookup_insert_eq.
  eexists. split; [reflexivity|]. cbn. f_equal.
  unfold Registry.set_groups. cbn.
  rewrite delete_insert_id by done. by destruct (loaded w).
Qed.

Lemma cmd_group_unknown_member_witness :
  Registry.cmd_group "new" ["a"; "nope"; "b"] shop_world
    = (shop_world, Exit "Error: unknown model or group 'nope'").
Proof.
  apply (cmd_group_unknown_member "new" ["a"] ["b"] "nope" shop_world).
  - intros x ->%list_elem_of_singleton. vm_compute. reflexivity.
  - vm_compute. reflexivity.
Defined.

Lemma cmd_group_saves_witness :
  ∃ w' idx',
    Registry.cmd_group "k" ["b"; "h"] shop_world = (w', Ok tt) ∧
    index_file w' = Some idx' ∧
    groups idx' !! "k" = Some ["b"; "h"] ∧
    (NameResolver.expand_names idx' ["k"]).2 = Ok ["b"; "a"].
Proof.
  destruct (cmd_group_saves "k" ["b"; "h"] shop_world)
    as (w' & idx' & Hrun & Hidx & _ & Hg & _ & _ & _ & Hexp).
  { discriminate. }
  { intros x Hx. repeat (apply elem_of_cons in Hx as [->|Hx]);
      [vm_compute; reflexivity..|]. by apply elem_of_nil in Hx. }
  exists w', idx'. split_and!; [exact Hrun|exact Hidx| |].
  - rewrite Hg. apply lookup_insert_eq.
  - apply Hexp. vm_compute in Hrun. injection Hrun as <-.
    vm_compute in Hidx. injection Hidx as <-.
    vm_compute. reflexivity.
Defined.

Lemma cmd_group_accepts_cycle_witness :
  ∃ w' idx' y,
    Registry.cmd_group "h" ["a"; "h"] shop_world = (w', Ok tt) ∧
    index_file w' = Some idx' ∧
    (NameResolver.expand_names idx' ["h"]).2
      = Exit (NameResolver.cycle_msg y).
Proof.
  apply (cmd_group_accepts_cycle "h" ["a"; "h"] shop_world).
  - apply elem_of_cons. right. apply elem_of_cons. by left.
  - intros x Hx. repeat (apply elem_of_cons in Hx as [->|Hx]);
      [vm_compute; reflexivity..|]. by apply elem_of_nil in Hx.
Defined.

Lemma cmd_group_save_delete_witness :
  ∃ w2, Registry.cmd_group "k" []
          (Registry.cmd_group "k" ["a"] shop_world).1 = (w2, Ok tt) ∧
        index_file w2 = Some idx_shop.
Proof.
  apply (cmd_group_save_delete "k" ["a"] shop_world
           (Registry.cmd_group "k" ["a"] shop_world).1).
  - discriminate.
  - vm_compute. reflexivity.
  - vm_compute. reflexivity.
Defined.

(** ** The [list] command *)

Section listing.
Import Registry.

Lemma for_each_emit {A} (f : A → line) (l : list A) (w : world) :
  for_each (λ x, modify (emit (f x))) l w = (emit_all (f <$> l) w, Ok tt).
Proof.
  revert w. induction l as [|x l IH]; intros w.
  - cbn. unfold mret, M_ret, ret. f_equal. apply world_eq; cbn; try done.
    by rewrite app_nil_r.
  - rewrite for_each_cons. cbn [modify]. rewrite IH. f_equal.
    apply world_eq; cbn; try done. by rewrite <- app_assoc.
Qed.

#[local] Instance str_le_total : Total str_le.
Proof. intros a b. apply String.leb_total. Qed.

#[local] Instance key_le_total {V} :
  Total (λ a b : string * V, str_le a.1 b.1).
Proof. intros a b. apply String.leb_total. Qed.

Lemma sorted_items_spec {V} (d : gmap string V) :
  Sorted (λ a b, str_le a.1 b.1) (sorted_items d) ∧
  NoDup (sorted_items d).*1 ∧
  (∀ k v, (k, v) ∈ sorted_items d ↔ d !! k = Some v).
Proof.
  unfold sorted_items.
  pose proof (merge_sort_Permutation (λ a b : string * V, str_le a.1 b.1)
                (map_to_list d)) as Hperm.
  split_and!.
  - apply (Sorted_merge_sort _).
  - rewrite Hperm. apply NoDup_fst_map_to_list.
  - intros k v. rewrite Hperm. apply elem_of_map_to_list.
Qed.

Lemma sorted_keys_spec {V} (d : gmap string V) :
  Sorted str_le (sorted_keys d) ∧
  NoDup (sorted_keys d) ∧
  (∀ k, k ∈ sorted_keys d ↔ is_Some (d !! k)).
Proof.
  unfold sorted_keys.
  pose proof (merge_sort_Permutation str_le (map_to_list d).*1) as Hperm.
  split_and!.
  - apply (Sorted_merge_sort _).
  - rewrite Hperm. apply NoDup_fst_map_to_list.
  - intros k. rewrite Hperm, list_elem_of_fmap. split.
    + intros ([k' v] & -> & Hin%elem_of_map_to_list). by exists v.
    + intros [v Hv]. exists (k, v). split; [done|].
      by apply elem_of_map_to_list.
Qed.

End listing.

(** X9.  [list dl] prints one line per registered model, in ascending order
    of the names (each name once), and changes nothing but the console;
    [list group] and [list token] do the same for groups and for token
    hostnames. *)
Theorem cmd_list_sorted (w : world) :
  (∃ items,
     Registry.cmd_list "dl" w
       = (emit_all (Registry.model_line <$> items) w, Ok tt) ∧
     Sorted (λ a b, Registry.str_le a.1 b.1) items ∧ NoDup items.*1 ∧
     (∀ k v, (k, v) ∈ items ↔ models (loaded w) !! k = Some v)) ∧
  (∃ items,
     Registry.cmd_list "group" w
       = (emit_all (Registry.group_line <$> items) w, Ok tt) ∧
     Sorted (λ a b, Registry.str_le a.1 b.1) items ∧ NoDup items.*1 ∧
     (∀ k v, (k, v) ∈ items ↔ groups (loaded w) !! k = Some v)) ∧
  (∃ hosts,
     Registry.cmd_list "token" w = (emit_all (Out <$> hosts) w, Ok tt) ∧
     Sorted Registry.str_le hosts ∧ NoDup hosts ∧
     (∀ h, h ∈ hosts ↔ is_Some (default ∅ (tokens_file w) !! h))).
Proof.
  split_and!.
  - exists (Registry.sorted_items (models (loaded w))).
    split; [|apply sorted_items_spec].
    unfold Registry.cmd_list. rewrite bind_unfold. unfold load_index.
    cbn [gets]. rewrite decide_False by done. rewrite decide_True by done.
    apply for_each_emit.
  - exists (Registry.sorted_items (groups (loaded w))).
    split; [|apply sorted_items_spec].
    unfold Registry.cmd_list. rewrite bind_unfold. unfold load_index.
    cbn [gets]. rewrite !decide_False by done. rewrite decide_True by done.
    apply for_each_emit.
  - exists (Registry.sorted_keys (default ∅ (tokens_file w))).
    split; [|apply sorted_keys_spec].
    unfold Registry.cmd_list. rewrite bind_unfold. unfold load_index.
    cbn [gets]. rewrite decide_True by done.
    rewrite bind_unfold. unfold load_tokens. cbn [gets].
    apply for_each_emit.
Qed.

Example cmd_list_shop :
  console (Registry.cmd_list "dl" shop_world).1 =
    [Out ("a" ++ Registry.tab ++ "models" ++ Registry.tab ++ "unzip=False");
     Out ("b" ++ Registry.tab ++ "packs" ++ Registry.tab ++ "unzip=True")].
Proof. vm_compute. reflexivity. Qed.

(** ** The [dl] command: refusals and the batch *)

Section dl_more.
Import Transfer Spec Command.
Context `{E : Env}.

Lemma no_exit_bind {A B} (m : M world A) (k : A → M world B) :
  no_exit m → (∀ a, no_exit (k a)) → no_exit (m ≫= k).
Proof.
  intros Hm Hk w msg. rewrite bind_unfold. specialize (Hm w).
  destruct (m w) as [w1 [a|msg1|e|]]; cbn in *; try done.
  - apply Hk.
  - by destruct (Hm msg1).
Qed.

Lemma no_exit_modify (f : world → world) : no_exit (modify f).
Proof. by intros w msg. Qed.

Lemma no_exit_gets {A} (f : world → A) : no_exit (gets f).
Proof. by intros w msg. Qed.

Lemma no_exit_mret {A} (a : A) : no_exit (mret a).
Proof. by intros w msg. Qed.

Lemma no_exit_raise {A} e : no_exit (raise (S:=world) (A:=A) e).
Proof. by intros w msg. Qed.

Lemma no_exit_stream_loop name target total d stream :
  no_exit (stream_loop name target total d stream).
Proof.
  revert d. induction stream as [|[[|b chunk]|] rest IH]; intros d; cbn.
  - apply no_exit_mret.
  - apply no_exit_mret.
  - apply no_exit_bind; [apply no_exit_modify|intros _].
    apply no_exit_bind; [apply no_exit_modify|intros _]. apply IH.
  - apply no_exit_raise.
Qed.

Lemma no_exit_unzip_step name sub target :
  no_exit (unzip_step name sub target).
Proof.
  unfold unzip_step. apply no_exit_bind; [apply no_exit_gets|intros [|]].
  - apply no_exit_bind; [apply no_exit_modify|intros _].
    apply no_exit_bind; [apply no_exit_gets|intros c].
    destruct (extractall c sub); [|apply no_exit_raise].
    apply no_exit_bind; [apply no_exit_modify|intros _].
    apply no_exit_bind; [apply no_exit_modify|intros _].
    apply no_exit_modify.
  - apply no_exit_modify.
Qed.

Lemma no_exit_receive name url sub force unzip resp :
  no_exit (receive name url sub force unzip resp).
Proof.
  unfold receive. apply no_exit_bind.
  { intros w msg. unfold lift. rewrite get_filename_derived. done. }
  intros filename. apply no_exit_bind; [apply no_exit_gets|intros present].
  destruct (present && negb force).
  { apply no_exit_bind; [apply no_exit_modify|intros _; apply no_exit_mret]. }
  apply no_exit_bind.
  { unfold content_length. destruct (headers_get _ _) as [s|];
      [|apply no_exit_mret].
    destruct (PyStr.truthy s); [|apply no_exit_mret].
    destruct (int_of_string s); [apply no_exit_mret|apply no_exit_raise]. }
  intros total. apply no_exit_bind.
  { unfold open_wb. apply no_exit_bind; [apply no_exit_gets|intros [|]].
    - apply no_exit_raise.
    - apply no_exit_modify. }
  intros _. apply no_exit_bind; [apply no_exit_stream_loop|intros _].
  apply no_exit_bind; [apply no_exit_modify|intros _].
  apply no_exit_bind; [|intros _; apply no_exit_mret].
  destruct unzip; [apply no_exit_unzip_step|apply no_exit_mret].
Qed.

Lemma no_exit_download_file name url sub force unzip :
  no_exit (download_file name url sub force unzip).
Proof.
  intros w msg. rewrite download_file_unfold.
  destruct (bool_decide _); [done|].
  destruct (urlopen _); [apply no_exit_receive|done].
Qed.

Lemma build_tasks_run idx frc ns tasks (w : world) :
  (build_tasks idx frc ns tasks w).1 = w ∧
  match (build_tasks idx frc ns tasks w).2 with
  | Ok ts =>
      (∀ n, n ∈ ns → is_Some (models idx !! n)) ∧
      ∃ new, ts = (tasks ++ new)%list ∧
             Forall2 (λ n t, ∃ m, models idx !! n = Some m ∧
                        t = (n, m_url m, m_subdirectory m, frc,
                             default false (m_unzip m))) ns new
  | Exit msg =>
      ∃ before n after,
        ns = (before ++ n :: after)%list ∧
        (∀ x, x ∈ before → is_Some (models idx !! x)) ∧
        models idx !! n = None ∧
        msg = "Error: no entry for model '" ++ n ++ "'"
  | _ => False
  end.
Proof.
  revert tasks. induction ns as [|n ns IH]; intros tasks.
  - cbn. split; [done|]. split; [by intros n ?%elem_of_nil|].
    exists []. by rewrite app_nil_r.
  - cbn [build_tasks]. destruct (models idx !! n) as [m|] eqn:Hn.
    + destruct (IH (tasks ++ [(n, m_url m, m_subdirectory m, frc,
                                default false (m_unzip m))])%list)
        as [Hw Hres].
      split; [done|].
      destruct (build_tasks idx frc ns _ w).2 as [ts|msg|e|]; try done.
      * destruct Hres as (Hall & new & -> & Hnew). split.
        -- intros x [->|Hx]%elem_of_cons; [by eexists|by apply Hall].
        -- eexists (_ :: new). rewrite <- app_assoc. split; [done|].
           constructor; [|done]. by exists m.
      * destruct Hres as (before & x & after & -> & Hb & Hx & ->).
        exists (n :: before), x, after. split_and!; try done.
        intros y [->|Hy]%elem_of_cons; [by eexists|by apply Hb].
    + cbn. split; [done|]. exists [], n, ns. split_and!; try done.
      by intros x ?%elem_of_nil.
Qed.

Lemma cmd_dl_index_mode (a : args) (w : world) trace ns :
  PyStr.truthy_opt (url a) = false →
  PyStr.truthy_opt (subdirectory a) = false →
  NameResolver.expand_names (loaded w)
    (NameResolver.dedup_loop ∅ [] (names a)) = (trace, Ok ns) →
  cmd_dl a w =
    match (build_tasks (loaded w) (force a) ns []
             (emit_all (Out <$> trace) w)).2 with
    | Ok tasks =>
        (emit_all (Out <$> trace) w,
         Ok (Some {| max_workers :=
                       match jobs a with
                       | Some j => j
                       | None => if bool_decide (1 < length tasks)%nat
                                 then 4%Z else 1%Z
                       end;
                     submitted := tasks |}))
    | Exit msg => (emit_all (Out <$> trace) w, Exit msg)
    | Raise e => (emit_all (Out <$> trace) w, Raise e)
    | Diverge => (emit_all (Out <$> trace) w, Diverge)
    end.
Proof.
  intros Hu Hd Hexp. unfold cmd_dl. rewrite bind_unfold. unfold load_index.
  cbn [gets]. fold (loaded w). rewrite Hexp.
  rewrite bind_unfold. cbn [modify]. rewrite bind_unfold.
  unfold lift at 1. rewrite Hu, Hd. cbn [orb].
  rewrite bind_unfold.
  destruct (build_tasks_run (loaded w) (force a) ns []
              (emit_all (Out <$> trace) w)) as [Hw _].
  destruct (build_tasks _ _ _ _ _) as [w1 [ts|msg|e|]]; cbn in *; by subst.
Qed.

End dl_more.

(** X10.  Whenever [dl] ends through [sys.exit] (cyclic group, wrong flag
    combination, name without an entry) no work has been done: compared
    with the world it started in, only the console has gained the group
    traces; no file, directory, document or request has changed. *)
Theorem cmd_dl_exit_pristine (E : Env) (a : Command.args) (w : world)
    (msg : string) :
  (Command.cmd_dl a w).2 = Exit msg →
  ∃ trace, (Command.cmd_dl a w).1 = emit_all (Out <$> trace) w.
Proof.
  remember (Command.cmd_dl a w) as out eqn:Hout. intros Hexit.
  unfold Command.cmd_dl in Hout. rewrite bind_unfold in Hout.
  unfold load_index in Hout. cbn [gets] in Hout. fold (loaded w) in Hout.
  destruct (NameResolver.expand_names _ _) as [trace r].
  rewrite bind_unfold in Hout. cbn [modify] in Hout.
  rewrite bind_unfold in Hout. unfold Transfer.lift at 1 in Hout.
  exists trace.
  destruct r as [ns|msg'|e|]; [|by subst out..].
  destruct (PyStr.truthy_opt (Command.url a)
            || PyStr.truthy_opt (Command.subdirectory a)).
  - destruct (negb (bool_decide (length ns = 1%nat))); [by subst out|].
    destruct (negb (PyStr.truthy_opt (Command.url a))
              || negb (PyStr.truthy_opt (Command.subdirectory a)));
      [by subst out|].
    destruct (bool_decide (is_Some (Command.jobs a))); [by subst out|].
    destruct (ns !! 0%nat) as [n|]; [|by subst out].
    destruct (Command.url a) as [u|]; [|by subst out].
    destruct (Command.subdirectory a) as [d|]; [|by subst out].
    exfalso. rewrite bind_unfold in Hout. unfold save_index in Hout.
    cbn [modify] in Hout. rewrite bind_unfold in Hout.
    pose proof (no_exit_download_file n u d (Command.force a)
                  (Command.unzip a)) as Hne.
    match type of Hout with
    | context [Transfer.download_file _ _ _ _ _ ?w1] =>
        specialize (Hne w1);
        destruct (Transfer.download_file n u d (Command.force a)
                    (Command.unzip a) w1) as [w2 [p|msg'|e|]]
    end; subst out; cbn in *; try done.
    by destruct (Hne msg').
  - rewrite bind_unfold in Hout.
    destruct (build_tasks_run (loaded w) (Command.force a) ns []
                (emit_all (Out <$> trace) w)) as [Hw _].
    destruct (Command.build_tasks _ _ _ _ _) as [w1 [ts|msg'|e|]];
      subst out; cbn in *; by subst.
Qed.

Lemma cmd_dl_exit_pristine_witness :
  ∃ trace,
    (@Command.cmd_dl sample_env cyclic_args
       (set_index_file (Some idx_xy) empty_world)).1
      = emit_all (Out <$> trace) (set_index_file (Some idx_xy) empty_world).
Proof.
  apply (cmd_dl_exit_pristine sample_env cyclic_args
           (set_index_file (Some idx_xy) empty_world)
           "Error: cyclic group reference detected at 'x'").
  vm_compute. reflexivity.
Defined.

(** X11.  Without [-u]/[-d], [dl] only plans: when every resolved name has
    an entry it hands the pool one task per resolved name, in that order and
    never the same resource twice, each with the stored URL and directory,
    the command's force flag and the stored unzip flag (False when absent);
    the pool size is [-j] when given, otherwise 4 for several tasks and 1
    for a single one.  Up to then nothing but the console has changed. *)
Theorem cmd_dl_batch (E : Env) (a : Command.args) (w : world)
    (trace ns : list string) :
  PyStr.truthy_opt (Command.url a) = false →
  PyStr.truthy_opt (Command.subdirectory a) = false →
  NameResolver.expand_names (loaded w)
    (NameResolver.dedup_loop ∅ [] (Command.names a)) = (trace, Ok ns) →
  (∀ n, n ∈ ns → is_Some (models (loaded w) !! n)) →
  ∃ tasks,
    Command.cmd_dl a w =
      (emit_all (Out <$> trace) w,
       Ok (Some {| Command.max_workers :=
                     match Command.jobs a with
                     | Some j => j
                     | None => if bool_decide (1 < length ns)%nat
                               then 4%Z else 1%Z
                     end;
                   Command.submitted := tasks |})) ∧
    Forall2 (λ n t, ∃ m, models (loaded w) !! n = Some m ∧
               t = (n, m_url m, m_subdirectory m, Command.force a,
                    default false (m_unzip m))) ns tasks ∧
    NoDup ns.
Proof.
  intros Hu Hd Hexp Hall. rewrite (cmd_dl_index_mode a w trace ns) by done.
  destruct (build_tasks_run (loaded w) (Command.force a) ns []
              (emit_all (Out <$> trace) w)) as [_ Hres].
  destruct (Command.build_tasks _ _ _ _ _).2 as [ts|msg|e|]; try done.
  - destruct Hres as (_ & new & -> & Hnew). cbn [app]. exists new.
    rewrite (Forall2_length _ _ _ Hnew). split_and!; [done..|].
    assert ((NameResolver.expand_names (loaded w)
               (NameResolver.dedup_loop ∅ [] (Command.names a))).2 = Ok ns)
      as (_ & t & _ & ->)%expand_names_ok_iff by by rewrite Hexp.
    apply NoDup_dedup_loop.
  - destruct Hres as (before & n & after & -> & _ & Hn & _).
    destruct (Hall n) as [m Hm]; [|congruence].
    apply elem_of_app. right. by left.
Qed.

Lemma cmd_dl_batch_witness :
  (@Command.cmd_dl sample_env shop_args shop_world).2 =
    Ok (Some {| Command.max_workers := 4;
                Command.submitted :=
                  [("a", sample_url "notes.txt", "models", true, false);
                   ("b", sample_url "pack.zip", "packs", true, true)] |}).
Proof.
  destruct (cmd_dl_batch sample_env shop_args shop_world
              ["Group 'g' expanded to: a h"; "Group 'h' expanded to: b a"]
              ["a"; "b"]) as (tasks & Hrun & Htasks & _).
  { reflexivity. }
  { reflexivity. }
  { vm_compute. reflexivity. }
  { intros n Hn. repeat (apply elem_of_cons in Hn as [->|Hn]);
      [by eexists..|]. by apply elem_of_nil in Hn. }
  rewrite Hrun. cbn [snd]. do 3 f_equal.
  apply Forall2_cons_inv_l in Htasks
    as (t1 & rest & (m1 & Hm1 & ->) & Hrest & ->).
  apply Forall2_cons_inv_l in Hrest
    as (t2 & rest' & (m2 & Hm2 & ->) & Hnil & ->).
  apply Forall2_nil_inv_l in Hnil as ->.
  vm_compute in Hm1. injection Hm1 as <-.
  vm_compute in Hm2. injection Hm2 as <-.
  reflexivity.
Defined.







(** ** One transfer: faults and repetition *)

Section transfer_more.
Import Transfer Spec.
Context `{E : Env}.



Lemma download_file_bad_length name url sub force unzip w resp target s :
  answers url sub w resp target →
  force = true ∨ exists_path target (requested url sub w) = false →
  headers_get (resp_headers resp) "Content-Length" = Some s →
  s ≠ EmptyString → int_of_string s = None →
  download_file name url sub force unzip w
    = (requested url sub w, Raise ValueError).
Proof.
  intros (Hsub & Hopen & ->) Hgo Hs Hne Hint.
  rewrite download_file_unfold, Hopen.
  rewrite bool_decide_eq_false_2 by (rewrite Hsub; by intros [? ?]).
  unfold receive, lift.
  rewrite bind_unfold, get_filename_derived.
  rewrite bind_unfold. cbn [gets].
  assert (exists_path (joinpath sub (derived_filename resp url))
            (requested url sub w) && negb force = false) as ->.
  { destruct Hgo as [->| ->]; [apply andb_false_r|done]. }
  rewrite bind_unfold. unfold content_length. rewrite Hs.
  assert (PyStr.truthy s = true) as -> by by apply truthy_spec.
  by rewrite Hint.
Qed.

End transfer_more.


(** X14.  A Content-Length that is not a number stops the transfer before
    the target is opened: the transfer raises ValueError and no file has been
    written or truncated, even with [force] on an existing file. *)
Theorem bad_length_keeps_file (E : Env) (name url sub : string)
    (force unzip : bool) (w : world) (resp : response) (target s : string) :
  Spec.answers url sub w resp target →
  force = true ∨ exists_path target (Spec.requested url sub w) = false →
  headers_get (resp_headers resp) "Content-Length" = Some s →
  s ≠ EmptyString → int_of_string s = None →
  ∃ w', Transfer.download_file name url sub force unzip w
          = (w', Raise ValueError) ∧
        files w' = files w.
Proof.
  intros Hans Hgo Hs Hne Hint.
  rewrite (download_file_bad_length name url sub force unzip w resp target s)
    by done.
  by eexists.
Qed.



(** ** Filenames: what the two sources can yield *)

Section filename_more.
Import PyStr.

Lemma split_no_sep sep s :
  Forall (λ part, sep ∉ list_ascii_of_string part) (split sep s).
Proof.
  induction s as [|c s IH]; cbn.
  - repeat constructor. apply not_elem_of_nil.
  - case_decide as Hc.
    + constructor; [apply not_elem_of_nil|done].
    + destruct (split sep s) as [|p ps].
      * repeat constructor. cbn. rewrite not_elem_of_cons.
        split; [congruence|apply not_elem_of_nil].
      * apply Forall_cons in IH as [Hp Hps]. constructor; [|done].
        cbn. rewrite not_elem_of_cons. split; [congruence|done].
Qed.

Lemma basename_no_slash p : "/"%char ∉ list_ascii_of_string (basename p).
Proof.
  unfold basename. pose proof (split_no_sep "/" p) as Hall.
  destruct (last (split "/" p)) as [b|] eqn:Hlast; cbn.
  - apply last_Some in Hlast as (l' & Hl). rewrite Hl in Hall.
    apply Forall_app in Hall as [_ Hb]. by rewrite Forall_singleton in Hb.
  - apply not_elem_of_nil.
Qed.

Lemma substring_0_0 s : String.substring 0 0 s = EmptyString.
Proof. by destruct s. Qed.

Lemma rstrip_cons_keep p c s :
  p c = false → rstrip p (String c s) = String c (rstrip p s).
Proof. intros Hc. cbn. destruct (rstrip p s); by rewrite ?Hc. Qed.

Lemma split_cons_ne sep c s :
  c ≠ sep →
  split sep (String c s) =
    match split sep s with
    | part :: parts => String c part :: parts
    | [] => [String c EmptyString]
    end.
Proof. intros Hc. cbn. by rewrite decide_False. Qed.

End filename_more.

(** X17.  Without a Content-Disposition header the derived filename is
    never empty and never contains a slash: it is the text after the last
    slash of the URL path, or [downloaded.file]. *)
Theorem url_filename_plain (E : Env) (resp : response) (url : string) :
  headers_get (resp_headers resp) "Content-Disposition" = None →
  ∃ f, Filename.get_filename_from_response resp url = Ok f ∧
       f ≠ EmptyString ∧
       "/"%char ∉ list_ascii_of_string f.
Proof.
  intros Hcd. unfold Filename.get_filename_from_response. rewrite Hcd.
  eexists. split; [reflexivity|].
  destruct (PyStr.truthy _) eqn:Ht.
  - split; [by apply truthy_spec|apply basename_no_slash].
  - split; [done|]. vm_compute.
    intros Hin. repeat (apply elem_of_cons in Hin as [Hin|Hin];
                        [discriminate Hin|]).
    by apply elem_of_nil in Hin.
Qed.

Lemma url_filename_plain_witness :
  ∃ f, @Filename.get_filename_from_response sample_env notes_response
         (sample_url "sets/v2/notes.txt") = Ok f ∧
       f ≠ EmptyString ∧ "/"%char ∉ list_ascii_of_string f.
Proof.
  apply (url_filename_plain sample_env notes_response
           (sample_url "sets/v2/notes.txt")).
  reflexivity.
Defined.

(** X18.  A filename taken from the Content-Disposition header is used as
    sent: a value without semicolon, without trailing blank and without
    quotes at its ends comes back unchanged, slashes and dots included,
    whatever the URL. *)
Theorem header_filename_verbatim (E : Env) (others : list (string * string))
    (stream : list read_event) (url v : string) :
  PyStr.split ";" v = [v] →
  PyStr.rstrip PyStr.is_space v = v →
  PyStr.strip (PyStr.is_char PyStr.dquote) v = v →
  Filename.get_filename_from_response
    {| resp_headers :=
         ("Content-Disposition", "attachment; filename=" ++ v) :: others;
       resp_stream := stream |} url = Ok v.
Proof.
  intros Hsemi Hblank Hquote.
  rewrite get_filename_derived. unfold Spec.derived_filename.
  cbn [resp_headers headers_get]. rewrite decide_True by done.
  cbn [mbind option_bind]. unfold Spec.filename_param.
  assert (PyStr.split ";" ("attachment; filename=" ++ v)
          = ["attachment"; " filename=" ++ v]) as ->.
  { cbv [String.append].
    repeat (rewrite split_cons_ne by discriminate).
    cbn [PyStr.split]. rewrite decide_True by done.
    repeat (rewrite split_cons_ne by discriminate).
    by rewrite Hsemi. }
  assert (PyStr.strip PyStr.is_space (" filename=" ++ v) = "filename=" ++ v)
    as Hstrip.
  { unfold PyStr.strip. cbv [String.append]. cbn [PyStr.lstrip].
    change (PyStr.is_space " ") with true. cbn [PyStr.lstrip].
    change (PyStr.is_space "f") with false. cbn iota.
    repeat (rewrite rstrip_cons_keep by reflexivity). by rewrite Hblank. }
  cbn [fmap list_fmap]. rewrite Hstrip.
  change (PyStr.strip PyStr.is_space "attachment") with "attachment".
  rewrite filter_cons, decide_False by discriminate.
  rewrite filter_cons, decide_True
    by (cbv [String.append]; cbn [String.substring];
        by rewrite substring_0_0).
  cbn [head fmap option_fmap option_map].
  cbv [String.append]. cbn [String.length Nat.sub String.substring].
  replace (String.length v - 0)%nat with (String.length v) by lia.
  by rewrite substring_all, Hquote.
Qed.

Lemma header_filename_verbatim_witness :
  @Filename.get_filename_from_response sample_env
    {| resp_headers :=
         [("Content-Disposition", "attachment; filename=../../up.bin")];
       resp_stream := [] |} (sample_url "notes.txt") = Ok "../../up.bin".
Proof.
  apply (header_filename_verbatim sample_env [] [] (sample_url "notes.txt")
           "../../up.bin"); reflexivity.
Defined.

(** ** Tokens *)



(** ** Witnesses for the transfer faults *)


Lemma bad_length_keeps_file_witness :
  ∃ w', @Transfer.download_file faulty_env "m" "http://h/weird.bin" "dir"
          true false notes_world = (w', Raise ValueError) ∧
        files w' = files notes_world.
Proof.
  apply (bad_length_keeps_file faulty_env "m" "http://h/weird.bin" "dir"
           true false notes_world
           {| resp_headers := [("content-length", "12 bytes")];
              resp_stream := [Data [x01]] |}
           "dir/weird.bin" "12 bytes").
  - split_and!; vm_compute; reflexivity.
  - by left.
  - reflexivity.
  - discriminate.
  - reflexivity.
Defined.


